(** * terraform-provider-akamai: provider bootstrap and DNS record reconciler

    A shallow embedding of [pkg/akamai/provider.go] (the process-wide
    provider singleton and the schema/resource merge helpers) and of the
    DNS record reconciler exercised by [TestResDnsRecord].

    Go maps are reference values: [mergeSchema] and [mergeResource] write
    through the destination reference.  The embedding therefore keeps map
    contents in a store indexed by locations and passes references around,
    so that in-place mutation and the identity of the returned map can both
    be stated. *)

From stdpp Require Import gmap strings list fin_maps.

Set Default Proof Using "Type".

(** ** Go run-time values *)

(** Errors of the [akamai] package.  [Errorf_w e s] is
    [fmt.Errorf("%w: %s", e, s)]. *)
Inductive error : Type :=
  | ErrDuplicateSchemaKey
  | ErrExternal (msg : string)
  | Errorf_w (e : error) (s : string).

(** What a run-time panic carries. *)
Inductive panic_value : Type :=
  | PanicNilMapAssign            (* assignment to entry in nil map *)
  | PanicNilDeref                (* nil pointer dereference *)
  | PanicErr (e : error).        (* panic(err) *)

(** A Go call either returns or panics. *)
Inductive outcome (A : Type) : Type :=
  | Return (a : A)
  | Panic (pv : panic_value).
Arguments Return {A} a.
Arguments Panic {A} pv.

Definition loc := positive.

(** A map value is a reference: [nilmap] is the nil map, [mapat l] a map
    allocated by [make] or a map literal. *)
Inductive mapref : Type :=
  | nilmap
  | mapat (l : loc).

(** Contents of every allocated [map[string]V]. *)
Abbreviation store V := (gmap loc (gmap string V)).

(** [m[k]] reads: a nil map reads as empty. *)
Definition contents {V} (h : store V) (r : mapref) : gmap string V :=
  match r with
  | nilmap => ∅
  | mapat l => default ∅ (h !! l)
  end.

(** [make(map[string]V)] and map literals: a fresh location. *)
Definition alloc {V} (m : gmap string V) (h : store V) : loc * store V :=
  let l := fresh (dom h) in (l, <[l := m]> h).

(** The order in which a [for k, v := range m] statement visits a map is
    chosen by the run time from a random seed; all the language promises is
    that every entry is visited once.  [NewBigCache] is the constructor of
    the vendored cache, with the life window in nanoseconds. *)
Record BigCache : Type := { LifeWindow : Z }.

Class Runtime : Type := {
  range : ∀ {V : Type}, nat → gmap string V → list (string * V);
  range_perm : ∀ (V : Type) (seed : nat) (m : gmap string V),
      range seed m ≡ₚ map_to_list m;
  NewBigCache : Z → BigCache + error
}.

(** One admissible run time: maps are visited in key order and the cache
    constructor succeeds. *)
Definition sorted_runtime : Runtime :=
  {| range := λ V _ m, map_to_list m;
     range_perm := λ V _ m, reflexivity (map_to_list m);
     NewBigCache := λ w, inl {| LifeWindow := w |} |}.

(** A second one: same order, but the cache constructor fails. *)
Definition failing_cache_runtime : Runtime :=
  {| range := λ V _ m, map_to_list m;
     range_perm := λ V _ m, reflexivity (map_to_list m);
     NewBigCache := λ w, inr (ErrExternal "bigcache") |}.

(** ** mergeSchema / mergeResource *)

(** The body of both merge functions, over the sequence [it] of entries the
    [range] statement yields:
<<
    for k, v := range from {
        if _, ok := to[k]; ok {
            return nil, fmt.Errorf("%w: %s", ErrDuplicateSchemaKey, k)
        }
        to[k] = v
    }
    return to, nil
>>
    The store is returned in every case, also with an error or a panic. *)
Fixpoint mergeRange {V} (it : list (string * V)) (to : mapref) (h : store V)
  : store V * outcome (mapref * option error) :=
  match it with
  | [] => (h, Return (to, None))
  | (k, v) :: rest =>
      match contents h to !! k with
      | Some _ => (h, Return (nilmap, Some (Errorf_w ErrDuplicateSchemaKey k)))
      | None =>
          match to with
          | nilmap => (h, Panic PanicNilMapAssign)
          | mapat l => mergeRange rest to (<[l := <[k := v]> (contents h to)]> h)
          end
      end
  end.

Definition mergeResult : Type := mapref * option error.

(** ** The plugin SDK's types, as far as [provider.go] touches them *)

Module schema.

Inductive ValueType : Type :=
  | TypeInvalid | TypeBool | TypeInt | TypeFloat
  | TypeString | TypeList | TypeMap | TypeSet.

(** [schema.EnvDefaultFunc(k, dv)]. *)
Inductive SchemaDefaultFunc : Type :=
  | EnvDefaultFunc (k : string) (dv : option string).

Record Schema : Type := {
  Type_ : ValueType;
  Optional : bool;
  Description : string;
  Default : option string;
  DefaultFunc : option SchemaDefaultFunc
}.

(** A resource or data source: its attribute schema (the callbacks play
    no part in the bootstrap). *)
Record Resource : Type := { ResourceSchema : gmap string Schema }.

(** The function literal assigned to [ConfigureContextFunc]. *)
Inductive ConfigureContextFunc : Type :=
  | configureSubproviders.

Module Provider.
Record t : Type := {
  Schema : mapref;
  ResourcesMap : mapref;
  DataSourcesMap : mapref;
  ProviderMetaSchema : mapref;
  ConfigureContextFunc : option schema.ConfigureContextFunc
}.
End Provider.

End schema.

(** The [Subprovider] interface.  Its map-valued methods are called once
    per sub-provider and only read, so each is the map it returns. *)
Module Subprovider.
Record t : Type := {
  Name : string;
  Version : string;
  Schema : gmap string schema.Schema;
  Resources : gmap string schema.Resource;
  DataSources : gmap string schema.Resource
}.
End Subprovider.

Module provider.
Record t : Type := {
  Provider : schema.Provider.t;          (* embedded schema.Provider *)
  subs : gmap string Subprovider.t;
  cache : option BigCache
}.
End provider.

(** [from] is the source map's contents when the loop starts.  The loop
    writes to the destination only, and if source and destination are one
    map the first key visited is already a duplicate, so the source does not
    change while it is being visited. *)
Definition mergeSchema `{Runtime} (seed : nat)
    (from : gmap string schema.Schema) (to : mapref)
    (h : store schema.Schema) : store schema.Schema * outcome mergeResult :=
  mergeRange (range seed from) to h.

Definition mergeResource `{Runtime} (seed : nat)
    (from : gmap string schema.Resource) (to : mapref)
    (h : store schema.Resource) : store schema.Resource * outcome mergeResult :=
  mergeRange (range seed from) to h.

(** ** Process state *)

(** The package variables [once] and [instance], the heap they point into,
    and the seed of the next [range] statement.  [init_runs] is
    instrumentation: it counts entries into the function literal handed to
    [once.Do]. *)
Record process : Type := {
  once : bool;
  instance : option loc;
  providers : gmap loc provider.t;
  schemas : store schema.Schema;
  resources : store schema.Resource;
  seed : nat;
  init_runs : nat
}.

(** The state of a freshly started process. *)
Definition start : process :=
  {| once := false; instance := None; providers := ∅;
     schemas := ∅; resources := ∅; seed := 0; init_runs := 0 |}.

Definition Go (A : Type) : Type := process → process * outcome A.

Definition go_ret {A} (a : A) : Go A := λ σ, (σ, Return a).

Definition go_bind {A B} (f : A → Go B) (m : Go A) : Go B :=
  λ σ, match m σ with
       | (σ', Return a) => f a σ'
       | (σ', Panic pv) => (σ', Panic pv)
       end.

Definition panic {A} (pv : panic_value) : Go A := λ σ, (σ, Panic pv).

Notation "x <- m ;; k" := (go_bind (λ x, k) m)
  (at level 100, m at next level, right associativity,
   format "'[v' x  <-  m  ;;  '/' k ']'").
Notation "m ;;; k" := (go_bind (λ _, k) m)
  (at level 100, right associativity).

(** *** Field updates *)

Definition with_once (b : bool) (σ : process) : process :=
  {| once := b; instance := instance σ; providers := providers σ;
     schemas := schemas σ; resources := resources σ; seed := seed σ;
     init_runs := init_runs σ |}.

Definition with_instance (i : option loc) (σ : process) : process :=
  {| once := once σ; instance := i; providers := providers σ;
     schemas := schemas σ; resources := resources σ; seed := seed σ;
     init_runs := init_runs σ |}.

Definition with_providers (ps : gmap loc provider.t) (σ : process) : process :=
  {| once := once σ; instance := instance σ; providers := ps;
     schemas := schemas σ; resources := resources σ; seed := seed σ;
     init_runs := init_runs σ |}.

Definition with_schemas (h : store schema.Schema) (σ : process) : process :=
  {| once := once σ; instance := instance σ; providers := providers σ;
     schemas := h; resources := resources σ; seed := seed σ;
     init_runs := init_runs σ |}.

Definition with_resources (h : store schema.Resource) (σ : process) : process :=
  {| once := once σ; instance := instance σ; providers := providers σ;
     schemas := schemas σ; resources := h; seed := seed σ;
     init_runs := init_runs σ |}.

Definition next_seed (σ : process) : process :=
  {| once := once σ; instance := instance σ; providers := providers σ;
     schemas := schemas σ; resources := resources σ; seed := S (seed σ);
     init_runs := init_runs σ |}.

Definition count_init (σ : process) : process :=
  {| once := once σ; instance := instance σ; providers := providers σ;
     schemas := schemas σ; resources := resources σ; seed := seed σ;
     init_runs := S (init_runs σ) |}.

Definition set_Schema (r : mapref) (p : provider.t) : provider.t :=
  let q := provider.Provider p in
  {| provider.Provider :=
       {| schema.Provider.Schema := r;
          schema.Provider.ResourcesMap := schema.Provider.ResourcesMap q;
          schema.Provider.DataSourcesMap := schema.Provider.DataSourcesMap q;
          schema.Provider.ProviderMetaSchema := schema.Provider.ProviderMetaSchema q;
          schema.Provider.ConfigureContextFunc := schema.Provider.ConfigureContextFunc q |};
     provider.subs := provider.subs p;
     provider.cache := provider.cache p |}.

Definition set_ResourcesMap (r : mapref) (p : provider.t) : provider.t :=
  let q := provider.Provider p in
  {| provider.Provider :=
       {| schema.Provider.Schema := schema.Provider.Schema q;
          schema.Provider.ResourcesMap := r;
          schema.Provider.DataSourcesMap := schema.Provider.DataSourcesMap q;
          schema.Provider.ProviderMetaSchema := schema.Provider.ProviderMetaSchema q;
          schema.Provider.ConfigureContextFunc := schema.Provider.ConfigureContextFunc q |};
     provider.subs := provider.subs p;
     provider.cache := provider.cache p |}.

Definition set_DataSourcesMap (r : mapref) (p : provider.t) : provider.t :=
  let q := provider.Provider p in
  {| provider.Provider :=
       {| schema.Provider.Schema := schema.Provider.Schema q;
          schema.Provider.ResourcesMap := schema.Provider.ResourcesMap q;
          schema.Provider.DataSourcesMap := r;
          schema.Provider.ProviderMetaSchema := schema.Provider.ProviderMetaSchema q;
          schema.Provider.ConfigureContextFunc := schema.Provider.ConfigureContextFunc q |};
     provider.subs := provider.subs p;
     provider.cache := provider.cache p |}.

Definition set_ConfigureContextFunc (f : option schema.ConfigureContextFunc)
    (p : provider.t) : provider.t :=
  let q := provider.Provider p in
  {| provider.Provider :=
       {| schema.Provider.Schema := schema.Provider.Schema q;
          schema.Provider.ResourcesMap := schema.Provider.ResourcesMap q;
          schema.Provider.DataSourcesMap := schema.Provider.DataSourcesMap q;
          schema.Provider.ProviderMetaSchema := schema.Provider.ProviderMetaSchema q;
          schema.Provider.ConfigureContextFunc := f |};
     provider.subs := provider.subs p;
     provider.cache := provider.cache p |}.

Definition set_subs (m : gmap string Subprovider.t) (p : provider.t) : provider.t :=
  {| provider.Provider := provider.Provider p;
     provider.subs := m;
     provider.cache := provider.cache p |}.

Definition set_cache (c : option BigCache) (p : provider.t) : provider.t :=
  {| provider.Provider := provider.Provider p;
     provider.subs := provider.subs p;
     provider.cache := c |}.

(** *** Reading and writing through [instance] *)

(** [*instance]: a nil pointer dereference panics. *)
Definition loadInstance : Go provider.t := λ σ,
  match instance σ with
  | None => (σ, Panic PanicNilDeref)
  | Some l =>
      match providers σ !! l with
      | None => (σ, Panic PanicNilDeref)
      | Some p => (σ, Return p)
      end
  end.

(** [instance.f = x], as an update [upd] of the struct behind the pointer. *)
Definition storeInstance (upd : provider.t → provider.t) : Go unit := λ σ,
  match instance σ with
  | None => (σ, Panic PanicNilDeref)
  | Some l =>
      match providers σ !! l with
      | None => (σ, Panic PanicNilDeref)
      | Some p => (with_providers (<[l := upd p]> (providers σ)) σ, Return tt)
      end
  end.

(** Calls of the merge functions from inside [Provider]: they act on the
    process's stores and each consumes one [range] seed. *)
Definition callMergeSchema `{Runtime} (from : gmap string schema.Schema)
    (to : mapref) : Go mergeResult := λ σ,
  let '(h, r) := mergeSchema (seed σ) from to (schemas σ) in
  (next_seed (with_schemas h σ), r).

Definition callMergeResource `{Runtime} (from : gmap string schema.Resource)
    (to : mapref) : Go mergeResult := λ σ,
  let '(h, r) := mergeResource (seed σ) from to (resources σ) in
  (next_seed (with_resources h σ), r).

(** [if err != nil { panic(err) }] *)
Definition panicOnErr (err : option error) : Go unit :=
  match err with
  | Some e => panic (PanicErr e)
  | None => go_ret tt
  end.

(** ** Provider *)

(** The schema literal of lines 83-95. *)
Definition baseSchema : gmap string schema.Schema :=
  {[ "edgerc" :=
       {| schema.Type_ := schema.TypeString;
          schema.Optional := true;
          schema.Description := "";
          schema.Default := None;
          schema.DefaultFunc := Some (schema.EnvDefaultFunc "EDGERC" None) |};
     "config_section" :=
       {| schema.Type_ := schema.TypeString;
          schema.Optional := true;
          schema.Description :=
            "The section of the edgerc file to use for configuration";
          schema.Default := Some "default";
          schema.DefaultFunc := None |} ]}.

(** [instance = &provider{...}] (lines 81-101): four fresh maps, the [subs]
    map, a fresh struct, and the assignment to the package variable. *)
Definition newInstance : Go unit := λ σ,
  let '(lS, hs) := alloc baseSchema (schemas σ) in
  let '(lR, hr) := alloc ∅ (resources σ) in
  let '(lD, hr) := alloc ∅ hr in
  let '(lM, hs) := alloc ∅ hs in
  let p :=
    {| provider.Provider :=
         {| schema.Provider.Schema := mapat lS;
            schema.Provider.ResourcesMap := mapat lR;
            schema.Provider.DataSourcesMap := mapat lD;
            schema.Provider.ProviderMetaSchema := mapat lM;
            schema.Provider.ConfigureContextFunc := None |};
       provider.subs := ∅;
       provider.cache := None |} in
  let lp := fresh (dom (providers σ)) in
  ({| once := once σ; instance := Some lp;
      providers := <[lp := p]> (providers σ);
      schemas := hs; resources := hr; seed := seed σ;
      init_runs := init_runs σ |}, Return tt).

(** [10 * time.Minute], in nanoseconds. *)
Definition tenMinutes : Z := 10 * (60 * 1000000000).

(** Lines 103-108. *)
Definition newCache `{Runtime} : Go unit :=
  match NewBigCache tenMinutes with
  | inr err => panic (PanicErr err)
  | inl c => storeInstance (set_cache (Some c))
  end.

(** One iteration of [for _, p := range provs] (lines 111-127). *)
Definition mergeSubprovider `{Runtime} (p : Subprovider.t) : Go unit :=
  inst <- loadInstance ;;
  r <- callMergeSchema (Subprovider.Schema p)
         (schema.Provider.Schema (provider.Provider inst)) ;;
  panicOnErr r.2 ;;;
  storeInstance (set_Schema r.1) ;;;
  inst <- loadInstance ;;
  r <- callMergeResource (Subprovider.Resources p)
         (schema.Provider.ResourcesMap (provider.Provider inst)) ;;
  panicOnErr r.2 ;;;
  storeInstance (set_ResourcesMap r.1) ;;;
  inst <- loadInstance ;;
  r <- callMergeResource (Subprovider.DataSources p)
         (schema.Provider.DataSourcesMap (provider.Provider inst)) ;;
  panicOnErr r.2 ;;;
  storeInstance (set_DataSourcesMap r.1) ;;;
  storeInstance (λ i, set_subs (<[Subprovider.Name p := p]> (provider.subs i)) i).

Fixpoint mergeSubproviders `{Runtime} (provs : list Subprovider.t) : Go unit :=
  match provs with
  | [] => go_ret tt
  | p :: rest => mergeSubprovider p ;;; mergeSubproviders rest
  end.

(** The function literal handed to [once.Do] (lines 80-155). *)
Definition initialize `{Runtime} (provs : list Subprovider.t) : Go unit :=
  (λ σ, (count_init σ, Return tt)) ;;;
  newInstance ;;;
  newCache ;;;
  mergeSubproviders provs ;;;
  storeInstance (set_ConfigureContextFunc (Some schema.configureSubproviders)).

(** [once.Do(f)]: [f] runs only if no call of [Do] ran it before, and the
    flag is set when [f] is left, by return or by panic. *)
Definition onceDo (f : Go unit) : Go unit := λ σ,
  if once σ then (σ, Return tt)
  else let '(σ', r) := f σ in (with_once true σ', r).

(** [&instance.Provider]: the address of the struct embedded in the
    provider at [inst]. *)
Inductive providerPtr : Type :=
  | addrProvider (inst : loc).

(** [plugin.ProviderFunc]; the literal of lines 157-159 reads the package
    variable [instance] when it is called. *)
Definition ProviderFunc : Type := process → outcome providerPtr.

Definition providerFunc : ProviderFunc := λ σ,
  match instance σ with
  | None => Panic PanicNilDeref
  | Some l => Return (addrProvider l)
  end.

Definition Provider `{Runtime} (provs : list Subprovider.t) : Go ProviderFunc :=
  onceDo (initialize provs) ;;;
  go_ret providerFunc.

(** A sequence of calls of [Provider], one argument list each.  A panic
    may be recovered by the caller, so the run goes on after one; the
    outcomes are collected in call order. *)
Fixpoint ProviderCalls `{Runtime} (calls : list (list Subprovider.t))
    (σ : process) : process * list (outcome ProviderFunc) :=
  match calls with
  | [] => (σ, [])
  | provs :: rest =>
      let '(σ1, r) := Provider provs σ in
      let '(σ2, rs) := ProviderCalls rest σ1 in
      (σ2, r :: rs)
  end.


(** ** Contracts of the merge functions

    Both merge functions have the same body, so what is claimed of them is
    stated once, over a function [merge] of their common shape. *)

(** An error is returned exactly when source and destination share a key;
    a successful call returns the destination reference itself, and the
    map behind it then holds every old entry unchanged and every source
    entry, under the union of the two key sets. *)
Definition merge_contract `{Runtime} {V : Type}
    (merge : nat → gmap string V → mapref → store V → store V * outcome mergeResult)
    : Prop :=
  ∀ (seed : nat) (from : gmap string V) (to : mapref) (h : store V),
    ((∃ m e, (merge seed from to h).2 = Return (m, Some e)) ↔
     (∃ k, k ∈ dom from ∧ k ∈ dom (contents h to))) ∧
    (∀ m, (merge seed from to h).2 = Return (m, None) →
       m = to ∧
       dom (contents (merge seed from to h).1 to) = dom from ∪ dom (contents h to) ∧
       (∀ k v, contents h to !! k = Some v →
               contents (merge seed from to h).1 to !! k = Some v) ∧
       (∀ k v, from !! k = Some v →
               contents (merge seed from to h).1 to !! k = Some v)).

(** When an error is returned, the visit order splits at the duplicate key
    [k]: the entries [pre] visited before it were absent from the
    destination and are in it afterwards, so unless [k] came first the
    destination has changed. *)
Definition merge_not_atomic `{Runtime} {V : Type}
    (merge : nat → gmap string V → mapref → store V → store V * outcome mergeResult)
    : Prop :=
  ∀ (seed : nat) (from : gmap string V) (to : mapref) (h : store V) m e,
    (merge seed from to h).2 = Return (m, Some e) →
    ∃ pre k v post,
      range seed from = pre ++ (k, v) :: post ∧
      e = Errorf_w ErrDuplicateSchemaKey k ∧
      is_Some (contents h to !! k) ∧
      (∀ k' v', (k', v') ∈ pre →
         contents h to !! k' = None ∧
         contents (merge seed from to h).1 to !! k' = Some v') ∧
      contents (merge seed from to h).1 to = list_to_map pre ∪ contents h to ∧
      (pre ≠ [] → contents (merge seed from to h).1 to ≠ contents h to).

(** ** State predicates used in the statements about [Provider] *)

(** [instance] points to a provider whose three merge destinations are the
    maps at [lS], [lR] and [lD]. *)
Definition instance_at (l lS lR lD : loc) (σ : process) : Prop :=
  instance σ = Some l ∧
  ∃ p, providers σ !! l = Some p ∧
       schema.Provider.Schema (provider.Provider p) = mapat lS ∧
       schema.Provider.ResourcesMap (provider.Provider p) = mapat lR ∧
       schema.Provider.DataSourcesMap (provider.Provider p) = mapat lD.


(** Two sub-providers register a common key in the same kind of map. *)
Definition key_clash (p q : Subprovider.t) : Prop :=
  (∃ k, k ∈ dom (Subprovider.Schema p) ∧ k ∈ dom (Subprovider.Schema q)) ∨
  (∃ k, k ∈ dom (Subprovider.Resources p) ∧ k ∈ dom (Subprovider.Resources q)) ∨
  (∃ k, k ∈ dom (Subprovider.DataSources p) ∧ k ∈ dom (Subprovider.DataSources q)).

(** ** Concrete inputs *)

Definition stringAttr (descr : string) : schema.Schema :=
  {| schema.Type_ := schema.TypeString; schema.Optional := true;
     schema.Description := descr; schema.Default := None;
     schema.DefaultFunc := None |}.

Definition plainResource : schema.Resource :=
  {| schema.ResourceSchema := {[ "zone" := stringAttr "" ]} |}.

Definition dnsProvider : Subprovider.t :=
  {| Subprovider.Name := "dns";
     Subprovider.Version := "v0.8.3";
     Subprovider.Schema := {[ "dns_section" := stringAttr "dns" ]};
     Subprovider.Resources :=
       {[ "akamai_dns_zone" := plainResource;
          "akamai_dns_record" := plainResource ]};
     Subprovider.DataSources :=
       {[ "akamai_authorities_set" := plainResource ]} |}.

Definition gtmProvider : Subprovider.t :=
  {| Subprovider.Name := "gtm";
     Subprovider.Version := "v0.8.3";
     Subprovider.Schema := {[ "gtm_section" := stringAttr "gtm" ]};
     Subprovider.Resources := {[ "akamai_gtm_domain" := plainResource ]};
     Subprovider.DataSources :=
       {[ "akamai_gtm_default_datacenter" := plainResource ]} |}.

(** A sub-provider that registers a data source [dnsProvider] has too. *)
Definition rivalProvider : Subprovider.t :=
  {| Subprovider.Name := "rival";
     Subprovider.Version := "v0.0.1";
     Subprovider.Schema := {[ "rival_section" := stringAttr "rival" ]};
     Subprovider.Resources := {[ "akamai_rival" := plainResource ]};
     Subprovider.DataSources :=
       {[ "akamai_authorities_set" := plainResource ]} |}.

(** A schema store with the provider's base schema at location 1. *)
Definition baseStore : store schema.Schema := {[ 1%positive := baseSchema ]}.

(** Source maps that clash with the base schema on [config_section]. *)
Definition clashingSchema : gmap string schema.Schema :=
  {[ "gtm_section" := stringAttr "gtm";
     "config_section" := stringAttr "again" ]}.

(** ** The DNS record reconciler *)

(** The vendor client's types, as [TestResDnsRecord] builds them. *)
Module dns.

Record RecordBody : Type := {
  Name : string;
  RecordType : string;
  TTL : Z;
  Active : bool;
  Target : list string
}.

(** [dns.Error]; [http.StatusNotFound] is 404. *)
Record Error : Type := { StatusCode : Z }.

Definition StatusNotFound : Z := 404.

Definition isNotFound (e : Error) : bool := bool_decide (StatusCode e = StatusNotFound).

(** Calls the reconciler makes on the client, in the order made. *)
Inductive call : Type :=
  | CallGetRecord (zone name recordtype : string)
  | CallCreateRecord (body : RecordBody) (zone : string)
  | CallUpdateRecord (body : RecordBody) (zone : string)
  | CallDeleteRecord (body : RecordBody) (zone : string).

Definition isWrite (c : call) : bool :=
  match c with
  | CallGetRecord _ _ _ => false
  | _ => true
  end.

Definition isCreate (c : call) : bool :=
  match c with
  | CallCreateRecord _ _ => true
  | _ => false
  end.


Definition isGet (c : call) : bool :=
  match c with
  | CallGetRecord _ _ _ => true
  | _ => false
  end.

Definition payload (c : call) : list string :=
  match c with
  | CallGetRecord _ _ _ => []
  | CallCreateRecord b _ | CallUpdateRecord b _ | CallDeleteRecord b _ => Target b
  end.

(** Modelled from the spec: the client surface of section 6, whose
    declaration is outside the sources at hand.  [C] is whatever state
    stands behind the API (the platform, or a mock's script): every call
    may change it, and two reads need not agree.  [ProcessRdata] is the
    pure transform of raw values; an empty result is its no-op signal. *)
Class Client (C : Type) : Type := {
  GetRecord : string → string → string → C → C * (RecordBody + Error);
  CreateRecord : RecordBody → string → C → C * option Error;
  UpdateRecord : RecordBody → string → C → C * option Error;
  DeleteRecord : RecordBody → string → C → C * option Error;
  ProcessRdata : list string → string → list string
}.

End dns.

(** Modelled from the spec: the RecordSpec of section 3, the declared
    resource (the reconciler's own source file is missing). *)
Record RecordSpec : Type := {
  zone : string;
  name : string;
  recordtype : string;
  ttl : Z;
  rawValues : list string;
  active : bool
}.

(** Modelled from the spec: the write payload built for a spec, carrying
    [data] as its values (the reconciler's source file is missing). *)
Definition bindRecord (S : RecordSpec) (data : list string) : dns.RecordBody :=
  {| dns.Name := name S; dns.RecordType := recordtype S; dns.TTL := ttl S;
     dns.Active := active S; dns.Target := data |}.

(** One reconcile operation runs against the client's state and appends
    the calls it makes to a log. *)
Record session (C : Type) : Type := {
  remote : C;
  calls : list dns.call
}.
Arguments remote {C} s.
Arguments calls {C} s.

Definition writes (l : list dns.call) : list dns.call := List.filter dns.isWrite l.

Section Reconciler.
Context {C : Type} {client : dns.Client C}.

(** An operation ends in a value or in the client's error, unmodified
    (section 7: failures bubble to the host as they are). *)
Definition Op (A : Type) : Type := session C → session C * (A + dns.Error).

Definition op_ret {A} (a : A) : Op A := λ s, (s, inl a).

Definition op_fail {A} (e : dns.Error) : Op A := λ s, (s, inr e).

Definition op_bind {A B} (f : A → Op B) (m : Op A) : Op B :=
  λ s, match m s with
       | (s', inl a) => f a s'
       | (s', inr e) => (s', inr e)
       end.

Definition getRecord (z n t : string) : Op (dns.RecordBody + dns.Error) := λ s,
  let '(c, r) := dns.GetRecord z n t (remote s) in
  ({| remote := c; calls := calls s ++ [dns.CallGetRecord z n t] |}, inl r).

Definition createRecord (b : dns.RecordBody) (z : string) : Op unit := λ s,
  let '(c, r) := dns.CreateRecord b z (remote s) in
  ({| remote := c; calls := calls s ++ [dns.CallCreateRecord b z] |},
   match r with Some e => inr e | None => inl tt end).

Definition updateRecord (b : dns.RecordBody) (z : string) : Op unit := λ s,
  let '(c, r) := dns.UpdateRecord b z (remote s) in
  ({| remote := c; calls := calls s ++ [dns.CallUpdateRecord b z] |},
   match r with Some e => inr e | None => inl tt end).

(** Modelled from the spec: the reconciler's source file (the resource
    behind [akamai_dns_record]) is missing; only its test is present.
    Read, section 4.1: fetch the remote record by triple; not-found is a
    normal outcome ([None]); any other failure is propagated unmodified. *)
Definition Read (S : RecordSpec) : Op (option dns.RecordBody) :=
  op_bind (λ r,
    match r with
    | inl rec => op_ret (Some rec)
    | inr e => if dns.isNotFound e then op_ret None else op_fail e
    end) (getRecord (zone S) (name S) (recordtype S)).

(** Modelled from the spec: the reconciler's source file is missing.
    Create, section 4.1: Read the triple.  Not found: a Create write with
    the spec's processed data.  Found: the existing record's values go
    through the same transform; an empty result takes the save path, a
    write re-asserting the spec's own declared values (a CreateRecord
    call, the only write the "save record" scenario of the test
    registers); a non-empty result is the data of an Update write.  A
    successful write is followed by a Read that registers the record as
    tracked (the second Read of the SOA scenario in section 8). *)
Definition Create (S : RecordSpec) : Op (option dns.RecordBody) :=
  op_bind (λ r,
    match r with
    | inr e =>
        if dns.isNotFound e then
          op_bind (λ _, Read S)
            (createRecord
               (bindRecord S (dns.ProcessRdata (rawValues S) (recordtype S)))
               (zone S))
        else op_fail e
    | inl existing =>
        match dns.ProcessRdata (dns.Target existing) (recordtype S) with
        | [] =>
            op_bind (λ _, Read S)
              (createRecord (bindRecord S (rawValues S)) (zone S))
        | t =>
            op_bind (λ _, Read S)
              (updateRecord (bindRecord S t) (zone S))
        end
    end) (getRecord (zone S) (name S) (recordtype S)).

(** Modelled from the spec: the reconciler's source file is missing.
    Update, section 4.1: recompute the processed data from the spec's
    current values and issue an Update write unconditionally; then Read. *)
Definition Update (S : RecordSpec) : Op (option dns.RecordBody) :=
  op_bind (λ _, Read S)
    (updateRecord
       (bindRecord S (dns.ProcessRdata (rawValues S) (recordtype S)))
       (zone S)).

(** An operation started on client state [c] with an empty call log. *)
Definition run {A} (op : Op A) (c : C) : session C * (A + dns.Error) :=
  op {| remote := c; calls := [] |}.

End Reconciler.

(** *** Two clients *)

(** The platform as a table of records by (zone, name, type). *)
Definition zoneTable : Type := gmap (string * string * string) dns.RecordBody.

Definition tableClient : dns.Client zoneTable :=
  {| dns.GetRecord := λ z n t (c : zoneTable),
       (c, match c !! (z, n, t) with
           | Some r => inl r
           | None => inr {| dns.StatusCode := dns.StatusNotFound |}
           end);
     dns.CreateRecord := λ b z (c : zoneTable),
       (<[(z, dns.Name b, dns.RecordType b) := b]> c, None);
     dns.UpdateRecord := λ b z (c : zoneTable),
       (<[(z, dns.Name b, dns.RecordType b) := b]> c, None);
     dns.DeleteRecord := λ b z (c : zoneTable),
       (delete (z, dns.Name b, dns.RecordType b) c, None);
     dns.ProcessRdata := λ vals _, filter (λ v, v ≠ "") vals |}.

(** A scripted client in the manner of the test's [mockdns]: [GetRecord]
    answers from a script, one entry per call, the last entry for good;
    writes succeed and leave the script alone. *)
Definition mockdns : dns.Client (list (dns.RecordBody + dns.Error)) :=
  {| dns.GetRecord := λ _ _ _ script,
       match script with
       | [] => ([], inr {| dns.StatusCode := dns.StatusNotFound |})
       | [r] => ([r], r)
       | r :: rest => (rest, r)
       end;
     dns.CreateRecord := λ _ _ script, (script, None);
     dns.UpdateRecord := λ _ _ script, (script, None);
     dns.DeleteRecord := λ _ _ script, (script, None);
     dns.ProcessRdata := λ vals _, vals |}.

(** The records and specs of [TestResDnsRecord]. *)
Definition soaRec : dns.RecordBody :=
  {| dns.RecordType := "SOA";
     dns.Name := "exampleterraform.io";
     dns.Target :=
       ["ns1.exampleterraform.io root@exampleterraform.io 123456789 3600 600 3600 3600"];
     dns.TTL := 300;
     dns.Active := false |}.

Definition soaSpec : RecordSpec :=
  {| zone := "exampleterraform.io"; name := "@"; recordtype := "SOA";
     ttl := 300;
     rawValues :=
       ["ns1.exampleterraform.io root@exampleterraform.io 123456789 3600 600 3600 3600"];
     active := false |}.

Definition aRec : dns.RecordBody :=
  {| dns.Name := "exampleterraform.io";
     dns.RecordType := "A";
     dns.TTL := 300;
     dns.Target := ["10.0.0.2"; "10.0.0.3"];
     dns.Active := true |}.

Definition aSpec : RecordSpec :=
  {| zone := "exampleterraform.io"; name := "exampleterraform.io";
     recordtype := "A"; ttl := 300;
     rawValues := ["10.0.0.2"; "10.0.0.3"]; active := true |}.

Definition notFound : dns.Error := {| dns.StatusCode := dns.StatusNotFound |}.

(** ** Further contracts of the merge functions *)

(** What a merge never does, however it ends: it leaves every other map of
    the store alone, changes no entry the destination had, and adds nothing
    that is not an entry of the source.  An error never comes with a map:
    the map returned is nil, and the key the error names is a key of both
    the source and the destination. *)
Definition merge_footprint `{Runtime} {V : Type}
    (merge : nat → gmap string V → mapref → store V → store V * outcome mergeResult)
    : Prop :=
  ∀ (seed : nat) (from : gmap string V) (to : mapref) (h : store V),
    (∀ l', mapat l' ≠ to → (merge seed from to h).1 !! l' = h !! l') ∧
    (∀ k v, contents h to !! k = Some v →
            contents (merge seed from to h).1 to !! k = Some v) ∧
    (∀ k v, contents (merge seed from to h).1 to !! k = Some v →
            contents h to !! k = Some v ∨ from !! k = Some v) ∧
    (∀ m e, (merge seed from to h).2 = Return (m, Some e) →
            m = nilmap ∧
            ∃ k, e = Errorf_w ErrDuplicateSchemaKey k ∧
                 k ∈ dom from ∧ k ∈ dom (contents h to)).

(** The degenerate inputs.  An empty (or nil) source is a no-op that hands
    back the destination, nil included; a nil destination with anything to
    merge panics on the first assignment, the store untouched. *)
Definition merge_degenerate `{Runtime} {V : Type}
    (merge : nat → gmap string V → mapref → store V → store V * outcome mergeResult)
    : Prop :=
  (∀ (seed : nat) (to : mapref) (h : store V),
      merge seed ∅ to h = (h, Return (to, None))) ∧
  (∀ (seed : nat) (from : gmap string V) (h : store V),
      from ≠ ∅ → merge seed from nilmap h = (h, Panic PanicNilMapAssign)).

(** A call whose source is itself a map of the store, possibly the
    destination: the loop visits the contents the source has when the call
    starts. *)
Definition mergeFrom {V : Type}
    (merge : nat → gmap string V → mapref → store V → store V * outcome mergeResult)
    (seed : nat) (from to : mapref) (h : store V)
  : store V * outcome mergeResult :=
  merge seed (contents h from) to h.

(** Two merges into one allocated destination, one after the other, the
    sources being maps of the same store.  When neither source is the
    destination itself, both calls succeed exactly when the two sources
    and the destination are pairwise disjoint; the destination then holds
    all three, and merging in the other order leaves every map of the
    store with the same contents.  When the source is the destination
    itself, the call succeeds only on an empty map, and changes nothing
    either way. *)
Definition merge_twice `{Runtime} {V : Type}
    (merge : nat → gmap string V → mapref → store V → store V * outcome mergeResult)
    : Prop :=
  (∀ (seed1 seed2 seed3 seed4 : nat) (from1 from2 : mapref)
     (l : loc) (h : store V),
     from1 ≠ mapat l → from2 ≠ mapat l →
     let r1 := mergeFrom merge seed1 from1 (mapat l) h in
     let r2 := mergeFrom merge seed2 from2 (mapat l) r1.1 in
     let s1 := mergeFrom merge seed3 from2 (mapat l) h in
     let s2 := mergeFrom merge seed4 from1 (mapat l) s1.1 in
     ((r1.2 = Return (mapat l, None) ∧ r2.2 = Return (mapat l, None)) ↔
      (dom (contents h from1) ## dom (contents h (mapat l)) ∧
       dom (contents h from2) ## dom (contents h (mapat l)) ∧
       dom (contents h from1) ## dom (contents h from2))) ∧
     (r1.2 = Return (mapat l, None) → r2.2 = Return (mapat l, None) →
      contents r2.1 (mapat l)
        = contents h from2 ∪ contents h from1 ∪ contents h (mapat l) ∧
      s1.2 = Return (mapat l, None) ∧ s2.2 = Return (mapat l, None) ∧
      ∀ r, contents s2.1 r = contents r2.1 r)) ∧
  (∀ (seed : nat) (l : loc) (h : store V),
     let r := mergeFrom merge seed (mapat l) (mapat l) h in
     r.1 = h ∧
     (r.2 = Return (mapat l, None) ↔ contents h (mapat l) = ∅)).

(** A schema store holding the base schema at location 1 and the schemas
    of two sub-providers at locations 2 and 3. *)
Definition sourcesStore : store schema.Schema :=
  {[ 1%positive := baseSchema;
     2%positive := Subprovider.Schema dnsProvider;
     3%positive := Subprovider.Schema gtmProvider ]}.

(** ** Further state predicates for [Provider] *)

(** The sub-providers can all be merged: none registers a schema key of the
    provider's own base schema, and no two of them clash. *)
Definition compatible (provs : list Subprovider.t) : Prop :=
  (∀ p, p ∈ provs → dom (Subprovider.Schema p) ## dom baseSchema) ∧
  (∀ i j p q, i < j → provs !! i = Some p → provs !! j = Some q →
              ¬ key_clash p q).

(** The same against arbitrary key sets already present in the three
    destinations. *)
Definition compatible_with (KS KR KD : gset string)
    (provs : list Subprovider.t) : Prop :=
  (∀ p, p ∈ provs →
        dom (Subprovider.Schema p) ## KS ∧
        dom (Subprovider.Resources p) ## KR ∧
        dom (Subprovider.DataSources p) ## KD) ∧
  (∀ i j p q, i < j → provs !! i = Some p → provs !! j = Some q →
              ¬ key_clash p q).

(** [instance] points to exactly this provider struct. *)
Definition instance_is (l lS lR lD lM : loc) (c : option BigCache)
    (f : option schema.ConfigureContextFunc) (sb : gmap string Subprovider.t)
    (σ : process) : Prop :=
  instance σ = Some l ∧
  providers σ !! l =
    Some {| provider.Provider :=
              {| schema.Provider.Schema := mapat lS;
                 schema.Provider.ResourcesMap := mapat lR;
                 schema.Provider.DataSourcesMap := mapat lD;
                 schema.Provider.ProviderMetaSchema := mapat lM;
                 schema.Provider.ConfigureContextFunc := f |};
            provider.subs := sb;
            provider.cache := c |}.

(** Nothing outside the given locations differs between two states. *)
Definition untouched_outside (LS LR LP : gset loc) (σ σ' : process) : Prop :=
  (∀ l, l ∉ LS → schemas σ' !! l = schemas σ !! l) ∧
  (∀ l, l ∉ LR → resources σ' !! l = resources σ !! l) ∧
  (∀ l, l ∉ LP → providers σ' !! l = providers σ !! l).

(** The last sub-provider of a list that goes by the name [n]. *)
Definition lastNamed (n : string) (provs : list Subprovider.t)
  : option Subprovider.t :=
  last (filter (λ p, Subprovider.Name p = n) provs).

(** A sub-provider whose schema reuses a key of the base schema. *)
Definition edgercProvider : Subprovider.t :=
  {| Subprovider.Name := "edgerc";
     Subprovider.Version := "v0.0.1";
     Subprovider.Schema := {[ "edgerc" := stringAttr "path" ]};
     Subprovider.Resources := ∅;
     Subprovider.DataSources := ∅ |}.

(** A second sub-provider that goes by the name "dns", with keys of its own. *)
Definition dnsTwin : Subprovider.t :=
  {| Subprovider.Name := "dns";
     Subprovider.Version := "v0.9.0";
     Subprovider.Schema := {[ "dns_twin_section" := stringAttr "dns" ]};
     Subprovider.Resources := {[ "akamai_dns_twin" := plainResource ]};
     Subprovider.DataSources := ∅ |}.

(** A process that already holds a schema map of its own at location 1. *)
Definition loadedProcess : process :=
  {| once := false; instance := None; providers := ∅;
     schemas := baseStore; resources := ∅; seed := 0; init_runs := 0 |}.

(** ** Configuration: the function literal of lines 130-154 *)

(** Lines 20-27. *)
Definition ProviderRegistryPath : string := "registry.terraform.io/akamai/akamai".
Definition ProviderName : string := "terraform-provider-akamai".

Module diag.

Inductive Severity : Type := Error | Warning.

Record Diagnostic : Type := {
  Severity_ : Severity;
  Summary : string;
  Detail : string
}.

(** [diag.Diagnostics] is a slice; [None] is the nil slice, the only value
    that compares equal to [nil]. *)
Definition Diagnostics : Type := option (list Diagnostic).

End diag.

(** Values of the logging libraries are kept uninterpreted: a logger is the
    expression that built it.  [LogFromHCLog] is declared in another file
    of the package and is kept uninterpreted in the same way. *)
Module hclog.

Record Context : Type := { ctxName : string }.

Inductive Logger : Type :=
  | Default
  | FromContext (ctx : Context)
  | With (lg : Logger) (args : list string).

End hclog.

Module log.

Inductive Interface : Type :=
  | LogFromHCLog (lg : hclog.Logger).

End log.

(** The SDK's [ResourceData]: the provider block's settings. *)
Record ResourceData : Type := { settings : gmap string string }.

(** The [meta] struct (lines 51-54). *)
Module meta.
Record t : Type := {
  operationID : string;
  log : hclog.Logger
}.
End meta.

(** An [interface{}] value, as far as [Meta] can tell them apart: nil, a
    pointer to [meta], or a value of a type that does not implement [OperationMeta]. *)
Inductive any : Type :=
  | anyNil
  | anyMeta (m : meta.t)
  | anyOther (typ : string).

(** What the closure needs from outside the package: the random source
    behind [uuid.NewRandom] (by number of draws so far, as a string or an
    error), every sub-provider's [Configure] method, and the SDK's
    [UserAgent] method.  [Configure] is taken by its result, the
    diagnostics it returns for its arguments; what it does to the
    sub-provider's own state is not visible in this file. *)
Class Host : Type := {
  NewRandom : nat → string + error;
  Configure : Subprovider.t → log.Interface → ResourceData → diag.Diagnostics;
  UserAgent : string → string → string
}.

(** The process together with what the closure reads and writes outside
    the [akamai] package: [instance.TerraformVersion] (set by the SDK),
    the package variable [client.UserAgent], and the draws made from the
    random source.  [configured] is instrumentation: the sub-providers
    whose [Configure] was called, in call order. *)
Record host : Type := {
  proc : process;
  entropy : nat;
  terraformVersion : string;
  clientUserAgent : string;
  configured : list Subprovider.t
}.

(** Lines 144-148, over the sequence of entries the [range] statement
    yields: the sub-providers whose [Configure] was called, and the
    diagnostics returned early, if any. *)
Fixpoint configureRange `{Host} (it : list (string * Subprovider.t))
    (lg : log.Interface) (d : ResourceData)
  : list Subprovider.t * diag.Diagnostics :=
  match it with
  | [] => ([], None)
  | (_, p) :: rest =>
      match Configure p lg d with
      | Some ds => ([p], Some ds)
      | None =>
          let '(called, r) := configureRange rest lg d in (p :: called, r)
      end
  end.

(** The function literal assigned to [ConfigureContextFunc]. *)
Definition configureContext `{Runtime} `{Host}
    (ctx : hclog.Context) (d : ResourceData) (s : host)
  : host * outcome (any * diag.Diagnostics) :=
  match NewRandom (entropy s) with
  | inr e =>
      ({| proc := proc s; entropy := S (entropy s);
          terraformVersion := terraformVersion s;
          clientUserAgent := clientUserAgent s;
          configured := configured s |},
       Panic (PanicErr e))
  | inl opid =>
      let lg := hclog.With (hclog.FromContext ctx) ["OperationID"; opid] in
      let m := {| meta.log := lg; meta.operationID := opid |} in
      match loadInstance (proc s) with
      | (_, Panic pv) =>
          ({| proc := proc s; entropy := S (entropy s);
              terraformVersion := terraformVersion s;
              clientUserAgent := clientUserAgent s;
              configured := configured s |},
           Panic pv)
      | (_, Return inst) =>
          let '(called, r) :=
            configureRange (range (seed (proc s)) (provider.subs inst))
              (log.LogFromHCLog lg) d in
          match r with
          | Some ds =>
              ({| proc := next_seed (proc s); entropy := S (entropy s);
                  terraformVersion := terraformVersion s;
                  clientUserAgent := clientUserAgent s;
                  configured := configured s ++ called |},
               Return (anyNil, Some ds))
          | None =>
              ({| proc := next_seed (proc s); entropy := S (entropy s);
                  terraformVersion := terraformVersion s;
                  clientUserAgent := UserAgent ProviderName (terraformVersion s);
                  configured := configured s ++ called |},
               Return (anyMeta m, None))
          end
      end
  end.

(** [Meta] (lines 183-185): the type assertion [m.(OperationMeta)], which
    panics with a run-time error for nil and for any other type. *)
Definition Meta (m : any) : outcome meta.t :=
  match m with
  | anyMeta x => Return x
  | anyNil => Panic (PanicErr (ErrExternal "interface conversion: interface is nil"))
  | anyOther typ => Panic (PanicErr (ErrExternal "interface conversion: missing method"))
  end.

(** The [Log] method of [meta] (lines 188-190). *)
Definition metaLog (m : meta.t) (args : list string) : log.Interface :=
  log.LogFromHCLog (hclog.With (meta.log m) args).

(** The [OperationID] method of [meta] (lines 193-195). *)
Definition OperationID (m : meta.t) : string := meta.operationID m.

(** [Log] (lines 198-200). *)
Definition Log (args : list string) : log.Interface :=
  log.LogFromHCLog (hclog.With hclog.Default args).

(** A host whose random source yields a fixed id, whose [Configure] fails
    with a warning for the sub-provider named "gtm" and returns nil for
    all others. *)
Definition gtmWarning : diag.Diagnostic :=
  {| diag.Severity_ := diag.Warning;
     diag.Summary := "deprecated section";
     diag.Detail := "" |}.

Definition sampleHost : Host :=
  {| NewRandom := λ _, inl "7d444840-9dc0-11d1-b245-5ffdce74fad2";
     Configure := λ p _ _,
       if bool_decide (Subprovider.Name p = "gtm") then Some [gtmWarning] else None;
     UserAgent := λ n v, String.append n (String.append "/" v) |}.

(** A host where every [Configure] returns nil. *)
Definition quietHost : Host :=
  {| NewRandom := λ _, inl "7d444840-9dc0-11d1-b245-5ffdce74fad2";
     Configure := λ _ _ _, None;
     UserAgent := λ n v, String.append n (String.append "/" v) |}.

(** The host state around a process, before any configuration. *)
Definition hostOf (σ : process) : host :=
  {| proc := σ; entropy := 0; terraformVersion := "0.13.5";
     clientUserAgent := ""; configured := [] |}.

Definition sampleContext : hclog.Context := {| hclog.ctxName := "plan" |}.
Definition sampleData : ResourceData := {| settings := {[ "config_section" := "default" ]} |}.

(** The process after a first call with two compatible sub-providers, and
    the provider struct that call leaves behind [instance]. *)
Definition bootedProcess : process :=
  (Provider (H:=sorted_runtime) [dnsProvider; gtmProvider] start).1.

Definition bootedInstance : provider.t :=
  {| provider.Provider :=
       {| schema.Provider.Schema := mapat 1%positive;
          schema.Provider.ResourcesMap := mapat 1%positive;
          schema.Provider.DataSourcesMap := mapat 2%positive;
          schema.Provider.ProviderMetaSchema := mapat 2%positive;
          schema.Provider.ConfigureContextFunc := Some schema.configureSubproviders |};
     provider.subs := {[ "dns" := dnsProvider; "gtm" := gtmProvider ]};
     provider.cache := Some {| LifeWindow := tenMinutes |} |}.

Definition sampleOpid : string := "7d444840-9dc0-11d1-b245-5ffdce74fad2".

(** The key [k] is registered twice when merging [provs] into destinations
    that already hold the keys [KS], [KR] and [KD]: by a sub-provider and
    the destination's initial contents, or by two sub-providers in the same
    kind of map. *)
Definition registered_twice_with (KS KR KD : gset string) (k : string)
    (provs : list Subprovider.t) : Prop :=
  (∃ q, q ∈ provs ∧
        ((k ∈ dom (Subprovider.Schema q) ∧ k ∈ KS) ∨
         (k ∈ dom (Subprovider.Resources q) ∧ k ∈ KR) ∨
         (k ∈ dom (Subprovider.DataSources q) ∧ k ∈ KD))) ∨
  (∃ i j p q, i < j ∧ provs !! i = Some p ∧ provs !! j = Some q ∧
        ((k ∈ dom (Subprovider.Schema p) ∧ k ∈ dom (Subprovider.Schema q)) ∨
         (k ∈ dom (Subprovider.Resources p) ∧ k ∈ dom (Subprovider.Resources q)) ∨
         (k ∈ dom (Subprovider.DataSources p) ∧ k ∈ dom (Subprovider.DataSources q)))).

(** The same for [Provider]: against the base schema and empty resource
    and data-source maps. *)
Definition registered_twice (k : string) (provs : list Subprovider.t) : Prop :=
  registered_twice_with (dom baseSchema) ∅ ∅ k provs.

(** ** What a write followed by a Read reports *)

(** What the host is told after a write [w] followed by [Read]: the
    client's error for the write, or else what the read-back finds. *)
Definition afterWrite {C : Type} {client : dns.Client C}
    (S : RecordSpec) (w : C * option dns.Error)
  : option dns.RecordBody + dns.Error :=
  match w.2 with
  | Some e => inr e
  | None =>
      match (dns.GetRecord (zone S) (name S) (recordtype S) w.1).2 with
      | inl r => inl (Some r)
      | inr e => if dns.isNotFound e then inl None else inr e
      end
  end.

(** The client state after a write [w] followed by [Read]. *)
Definition remoteAfterWrite {C : Type} {client : dns.Client C}
    (S : RecordSpec) (w : C * option dns.Error) : C :=
  match w.2 with
  | Some _ => w.1
  | None => (dns.GetRecord (zone S) (name S) (recordtype S) w.1).1
  end.

(** ** Further inputs for the reconciler *)

(** A spec that declares no values, and a zone table that already holds a
    record at its triple whose only value the table client's transform
    drops. *)
Definition emptySpec : RecordSpec :=
  {| zone := "exampleterraform.io"; name := "exampleterraform.io";
     recordtype := "A"; ttl := 300; rawValues := []; active := true |}.

Definition staleZone : zoneTable :=
  {[ (zone emptySpec, name emptySpec, recordtype emptySpec)
       := bindRecord emptySpec [""] ]}.

(** A client that refuses its first write with a server error and accepts
    every later one; its state counts the writes it has seen.  Reads find
    the SOA record. *)
Definition serverError : dns.Error := {| dns.StatusCode := 500 |}.

Definition flakyClient : dns.Client nat :=
  {| dns.GetRecord := λ _ _ _ (n : nat), (n, inl soaRec);
     dns.CreateRecord := λ _ _ (n : nat),
       (S n, match n with O => Some serverError | _ => None end);
     dns.UpdateRecord := λ _ _ (n : nat),
       (S n, match n with O => Some serverError | _ => None end);
     dns.DeleteRecord := λ _ _ (n : nat),
       (S n, match n with O => Some serverError | _ => None end);
     dns.ProcessRdata := λ vals _, vals |}.

(** * Properties *)

(** ** The merge loop *)

Section MergeFacts.
Context {V : Type}.
Implicit Types (it pre post : list (string * V)) (h : store V) (to : mapref).

Lemma contents_assign l h (m : gmap string V) :
  contents (<[l := m]> h) (mapat l) = m.
Proof. unfold contents. by rewrite lookup_insert_eq. Qed.

Lemma contents_nil h : contents h nilmap = (∅ : gmap string V).
Proof. done. Qed.

(** What a run of the loop leaves behind: the entries visited before the
    loop was left are in the destination, nothing else changed, and the
    way the loop was left tells where it stopped. *)
Lemma mergeRange_inv it to h h' r :
  NoDup it.*1 →
  mergeRange it to h = (h', r) →
  ∃ pre post,
    it = pre ++ post ∧
    (∀ k, k ∈ pre.*1 → contents h to !! k = None) ∧
    contents h' to = list_to_map pre ∪ contents h to ∧
    (∀ l', mapat l' ≠ to → h' !! l' = h !! l') ∧
    (pre = [] → h' = h) ∧
    match r with
    | Return (m, None) => post = [] ∧ m = to
    | Return (m, Some e) =>
        m = nilmap ∧
        ∃ k v post', post = (k, v) :: post' ∧
                     e = Errorf_w ErrDuplicateSchemaKey k ∧
                     is_Some (contents h to !! k)
    | Panic pv => pv = PanicNilMapAssign ∧ to = nilmap ∧ pre = [] ∧ post ≠ []
    end.
Proof.
  revert h. induction it as [|[k v] rest IH]; intros h Hnd Hrun; simpl in Hrun.
  - injection Hrun as <- <-. exists [], []. split_and!; try done.
    + intros k Hin. by apply elem_of_nil in Hin.
    + simpl. by rewrite (left_id_L ∅ (∪)).
  - rewrite fmap_cons in Hnd. apply NoDup_cons in Hnd as [Hk Hnd].
    destruct (contents h to !! k) as [old|] eqn:Hlk.
    + injection Hrun as <- <-. exists [], ((k, v) :: rest).
      split_and!; try done.
      * intros k' Hin. by apply elem_of_nil in Hin.
      * simpl. by rewrite (left_id_L ∅ (∪)).
      * exists k, v, rest. rewrite Hlk. eauto.
    + destruct to as [|l].
      * injection Hrun as <- <-. exists [], ((k, v) :: rest).
        split_and!; done.
      * destruct (IH _ Hnd Hrun) as (pre & post & -> & Hfresh & Hc & Hoth & _ & Hr).
        rewrite contents_assign in Hc.
        assert (k ∉ pre.*1) as Hkpre.
        { intros Hin. apply Hk. rewrite fmap_app. apply elem_of_app. by left. }
        exists ((k, v) :: pre), post. split_and!.
        -- done.
        -- intros k' [->|Hin]%elem_of_cons; [done|].
           specialize (Hfresh k' Hin). rewrite contents_assign in Hfresh.
           apply lookup_insert_None in Hfresh. tauto.
        -- rewrite Hc, list_to_map_cons, <-insert_union_l.
           symmetry. apply insert_union_r.
           by apply not_elem_of_list_to_map_1.
        -- intros l' Hne. rewrite (Hoth l' Hne).
           apply lookup_insert_ne. congruence.
        -- done.
        -- destruct r as [[m [e|]]|pv].
           ++ destruct Hr as (-> & k' & v' & post' & -> & -> & Hsome).
              split; [done|]. exists k', v', post'. split_and!; try done.
              rewrite contents_assign in Hsome.
              destruct (decide (k = k')) as [<-|Hne].
              ** exfalso. apply Hk. rewrite fmap_app. apply elem_of_app.
                 right. simpl. by left.
              ** by rewrite lookup_insert_ne in Hsome.
           ++ done.
           ++ by destruct Hr as (_ & ? & _).
Qed.

End MergeFacts.

Section RangeFacts.
Context `{Runtime} {V : Type}.
Implicit Types (m : gmap string V).

Lemma range_NoDup seed m : NoDup (range seed m).*1.
Proof. rewrite (range_perm V seed m). apply NoDup_fst_map_to_list. Qed.

Lemma range_elem seed m k v : (k, v) ∈ range seed m ↔ m !! k = Some v.
Proof. rewrite (range_perm V seed m). apply elem_of_map_to_list. Qed.

Lemma range_keys seed m k : k ∈ (range seed m).*1 ↔ k ∈ dom m.
Proof.
  rewrite elem_of_dom, list_elem_of_fmap. split.
  - intros ([k' v] & -> & Hin). apply range_elem in Hin. eauto.
  - intros [v Hv]. exists (k, v). split; [done|]. by apply range_elem.
Qed.

Lemma list_to_map_range seed m : list_to_map (range seed m) = m.
Proof.
  rewrite (list_to_map_proper _ (map_to_list m)).
  - apply list_to_map_to_list.
  - apply range_NoDup.
  - apply range_perm.
Qed.

(** The loop, run over the visit order of a map, keeps the contract. *)
Lemma mergeRange_contract :
  merge_contract (λ seed (from : gmap string V) to h, mergeRange (range seed from) to h).
Proof.
  intros seed from to h. simpl.
  destruct (mergeRange (range seed from) to h) as [h' r] eqn:Hrun.
  destruct (mergeRange_inv _ _ _ _ _ (range_NoDup seed from) Hrun)
    as (pre & post & Hsplit & Hfresh & Hc & _ & _ & Hr).
  simpl. split; [split|].
  - intros (m & e & ->). destruct Hr as (_ & k & v & post' & -> & _ & Hsome).
    exists k. split.
    + apply (range_keys seed). rewrite Hsplit, fmap_app, elem_of_app.
      right. rewrite fmap_cons. by left.
    + by apply elem_of_dom.
  - intros (k & Hkf & Hkt). destruct r as [[m [e|]]|pv]; [by eauto|exfalso..].
    + destruct Hr as [-> _]. rewrite app_nil_r in Hsplit.
      apply (range_keys seed) in Hkf. rewrite Hsplit in Hkf.
      apply Hfresh in Hkf. apply elem_of_dom in Hkt as [? ?]. congruence.
    + destruct Hr as (_ & -> & _). simpl in Hkt. by apply not_elem_of_empty in Hkt.
  - intros m ->. destruct Hr as [-> ->]. rewrite app_nil_r in Hsplit.
    rewrite <-Hsplit, list_to_map_range in Hc. rewrite Hc. split_and!.
    + done.
    + by rewrite dom_union_L.
    + intros k v Hk. apply lookup_union_Some_raw. right. split; [|done].
      apply not_elem_of_dom. intros Hin%(range_keys seed).
      rewrite Hsplit in Hin. apply Hfresh in Hin. congruence.
    + intros k v Hk. by apply lookup_union_Some_l.
Qed.

Lemma mergeRange_not_atomic :
  merge_not_atomic (λ seed (from : gmap string V) to h, mergeRange (range seed from) to h).
Proof.
  intros seed from to h m e. simpl.
  destruct (mergeRange (range seed from) to h) as [h' r] eqn:Hrun.
  destruct (mergeRange_inv _ _ _ _ _ (range_NoDup seed from) Hrun)
    as (pre & post & Hsplit & Hfresh & Hc & _ & _ & Hr).
  simpl. intros ->. destruct Hr as (_ & k & v & post' & -> & -> & Hsome).
  assert (∀ k' v', (k', v') ∈ pre → contents h' to !! k' = Some v') as Hin.
  { intros k' v' Hel. rewrite Hc. apply lookup_union_Some_l.
    apply elem_of_list_to_map_1; [|done].
    pose proof (range_NoDup seed from) as Hnd.
    rewrite Hsplit, fmap_app in Hnd. by apply NoDup_app in Hnd as [? _]. }
  exists pre, k, v, post'. split_and!; try done.
  - intros k' v' Hel. split; [|by apply Hin].
    apply Hfresh, list_elem_of_fmap. by exists (k', v').
  - intros Hne Heq. destruct pre as [|[k' v'] pre']; [done|].
    assert (contents h' to !! k' = Some v') as Hs by (apply Hin; by left).
    rewrite Heq, Hfresh in Hs; [done|]. rewrite fmap_cons. by left.
Qed.

End RangeFacts.

Section MergeCases.
Context `{Runtime} {V : Type}.

(** The two ways a merge into an allocated map can end. *)
Lemma mergeRange_cases seed (from : gmap string V) l0 (h h' : store V) r :
  mergeRange (range seed from) (mapat l0) h = (h', r) →
  (∀ l', l' ≠ l0 → contents h' (mapat l') = contents h (mapat l')) ∧
  ((r = Return (mapat l0, None) ∧
    contents h' (mapat l0) = from ∪ contents h (mapat l0) ∧
    dom from ## dom (contents h (mapat l0))) ∨
   (∃ k, r = Return (nilmap, Some (Errorf_w ErrDuplicateSchemaKey k)) ∧
         k ∈ dom from ∧ k ∈ dom (contents h (mapat l0)))).
Proof.
  intros Hrun.
  destruct (mergeRange_inv _ _ _ _ _ (range_NoDup seed from) Hrun)
    as (pre & post & Hsplit & Hfresh & Hc & Hoth & _ & Hr).
  split.
  { intros l' Hne. unfold contents. rewrite Hoth; [done|congruence]. }
  destruct r as [[m [e|]]|pv].
  - right. destruct Hr as (-> & k & v & post' & -> & -> & Hsome).
    exists k. split_and!; [done| |by apply elem_of_dom].
    apply (range_keys seed). rewrite Hsplit, fmap_app, elem_of_app.
    right. rewrite fmap_cons. by left.
  - left. destruct Hr as [-> ->]. rewrite app_nil_r in Hsplit.
    rewrite <-Hsplit, list_to_map_range in Hc. split_and!; [done..|].
    intros k Hkf%(range_keys seed) [v Hkt]%elem_of_dom.
    rewrite Hsplit in Hkf. apply Hfresh in Hkf. congruence.
  - by destruct Hr as (_ & ? & _).
Qed.

End MergeCases.

(** ** The bootstrap *)

Section ProviderFacts.
Context `{Runtime}.

(** *** The [once] gate *)

Lemma Provider_done provs σ :
  once σ = true → Provider provs σ = (σ, Return providerFunc).
Proof. intros Hd. unfold Provider, go_bind, onceDo. by rewrite Hd. Qed.

Lemma Provider_sets_once provs σ : once (Provider provs σ).1 = true.
Proof.
  unfold Provider, go_bind, onceDo. destruct (once σ) eqn:Hd; [done|].
  by destruct (initialize provs σ) as [σ' [[]|pv]].
Qed.

Lemma ProviderCalls_done calls σ :
  once σ = true →
  ProviderCalls calls σ = (σ, (λ _, Return providerFunc) <$> calls).
Proof.
  intros Hd. induction calls as [|provs rest IH]; [done|].
  simpl. by rewrite (Provider_done _ _ Hd), IH.
Qed.


(** *** What the steps after [newInstance] leave alone *)














End ProviderFacts.

Section LoopFacts.
Context `{Runtime}.

Lemma go_bind_Return {A B} (m : Go A) (f : A → Go B) σ σ' a :
  m σ = (σ', Return a) → go_bind f m σ = f a σ'.
Proof. intros Hm. unfold go_bind. by rewrite Hm. Qed.

Lemma go_bind_Panic {A B} (m : Go A) (f : A → Go B) σ σ' pv :
  m σ = (σ', Panic pv) → go_bind f m σ = (σ', Panic pv).
Proof. intros Hm. unfold go_bind. by rewrite Hm. Qed.

Lemma loadInstance_at σ l p :
  instance σ = Some l → providers σ !! l = Some p →
  loadInstance σ = (σ, Return p).
Proof. intros Hi Hp. unfold loadInstance. by rewrite Hi, Hp. Qed.

Lemma storeInstance_at upd σ l p :
  instance σ = Some l → providers σ !! l = Some p →
  storeInstance upd σ = (with_providers (<[l := upd p]> (providers σ)) σ, Return tt).
Proof. intros Hi Hp. unfold storeInstance. by rewrite Hi, Hp. Qed.

Lemma bind_callMergeSchema {B} from to (f : mergeResult → Go B) σ :
  go_bind f (callMergeSchema from to) σ =
  let hr := mergeSchema (seed σ) from to (schemas σ) in
  match hr.2 with
  | Return a => f a (next_seed (with_schemas hr.1 σ))
  | Panic pv => (next_seed (with_schemas hr.1 σ), Panic pv)
  end.
Proof. unfold go_bind, callMergeSchema. by destruct (mergeSchema _ _ _ _). Qed.

Lemma bind_callMergeResource {B} from to (f : mergeResult → Go B) σ :
  go_bind f (callMergeResource from to) σ =
  let hr := mergeResource (seed σ) from to (resources σ) in
  match hr.2 with
  | Return a => f a (next_seed (with_resources hr.1 σ))
  | Panic pv => (next_seed (with_resources hr.1 σ), Panic pv)
  end.
Proof. unfold go_bind, callMergeResource. by destruct (mergeResource _ _ _ _). Qed.

Local Arguments contents : simpl never.

Variables l lS lR lD : loc.
Hypothesis HRD : lR ≠ lD.

Abbreviation KS σ := (dom (contents (schemas σ) (mapat lS))).
Abbreviation KR σ := (dom (contents (resources σ) (mapat lR))).
Abbreviation KD σ := (dom (contents (resources σ) (mapat lD))).

(** One sub-provider: either its keys were new in all three maps and are
    registered afterwards, or the iteration panics with a duplicate-key
    error. *)
Lemma mergeSubprovider_step p σ :
  instance_at l lS lR lD σ →
  match mergeSubprovider p σ with
  | (σ', Return _) =>
      instance_at l lS lR lD σ' ∧
      dom (Subprovider.Schema p) ## KS σ ∧
      dom (Subprovider.Resources p) ## KR σ ∧
      dom (Subprovider.DataSources p) ## KD σ ∧
      KS σ' = dom (Subprovider.Schema p) ∪ KS σ ∧
      KR σ' = dom (Subprovider.Resources p) ∪ KR σ ∧
      KD σ' = dom (Subprovider.DataSources p) ∪ KD σ
  | (σ', Panic pv) => ∃ k, pv = PanicErr (Errorf_w ErrDuplicateSchemaKey k)
  end.
Proof using HRD.
  intros (Hi & p0 & Hp & HS & HR & HD).
  destruct p0 as [[rS rR rD rM cf] sb ch]. simpl in HS, HR, HD. subst rS rR rD.
  unfold mergeSubprovider.
  erewrite go_bind_Return by (by eapply loadInstance_at). simpl.
  rewrite bind_callMergeSchema. simpl.
  destruct (mergeSchema (seed σ) (Subprovider.Schema p) (mapat lS) (schemas σ))
    as [h1 r1] eqn:E1.
  apply mergeRange_cases in E1 as [_ [(-> & Hc1 & Hd1)|(k & -> & _)]];
    [|simpl; by eauto].
  simpl.
  erewrite (go_bind_Return (go_ret ())) by reflexivity.
  erewrite go_bind_Return by (by eapply storeInstance_at).
  erewrite go_bind_Return by (eapply loadInstance_at; [exact Hi|apply lookup_insert_eq]).
  simpl.
  rewrite bind_callMergeResource. simpl.
  destruct (mergeResource (S (seed σ)) (Subprovider.Resources p) (mapat lR) (resources σ))
    as [h2 r2] eqn:E2.
  apply mergeRange_cases in E2 as [Hf2 [(-> & Hc2 & Hd2)|(k & -> & _)]];
    [|simpl; by eauto].
  simpl.
  erewrite (go_bind_Return (go_ret ())) by reflexivity.
  erewrite go_bind_Return by (eapply storeInstance_at; [exact Hi|apply lookup_insert_eq]).
  erewrite go_bind_Return by (eapply loadInstance_at; [exact Hi|apply lookup_insert_eq]).
  simpl.
  rewrite bind_callMergeResource. simpl.
  destruct (mergeResource (S (S (seed σ))) (Subprovider.DataSources p) (mapat lD) h2)
    as [h3 r3] eqn:E3.
  apply mergeRange_cases in E3 as [Hf3 [(-> & Hc3 & Hd3)|(k & -> & _)]];
    [|simpl; by eauto].
  simpl.
  erewrite (go_bind_Return (go_ret ())) by reflexivity.
  erewrite go_bind_Return by (eapply storeInstance_at; [exact Hi|apply lookup_insert_eq]).
  erewrite storeInstance_at by (first [exact Hi|apply lookup_insert_eq]).
  simpl.
  rewrite (Hf2 lD) in Hd3, Hc3 by done.
  split_and!; try done.
  - split; [done|]. eexists. split; [apply lookup_insert_eq|done].
  - by rewrite Hc1, dom_union_L.
  - by rewrite (Hf3 lR), Hc2, dom_union_L.
  - by rewrite Hc3, dom_union_L.
Qed.

(** The whole loop: if it is left normally, no sub-provider's keys were
    present at the start, and no two sub-providers share a key. *)
Lemma mergeSubproviders_Return provs σ σ' :
  instance_at l lS lR lD σ →
  mergeSubproviders provs σ = (σ', Return tt) →
  (∀ p, p ∈ provs →
     dom (Subprovider.Schema p) ## KS σ ∧
     dom (Subprovider.Resources p) ## KR σ ∧
     dom (Subprovider.DataSources p) ## KD σ) ∧
  (∀ i j p q, i < j → provs !! i = Some p → provs !! j = Some q →
     ¬ key_clash p q).
Proof using HRD.
  revert σ. induction provs as [|p rest IH]; intros σ Hwf Hrun.
  { split; [by intros p Hin%elem_of_nil|]. intros i j p q _ Hi. by rewrite lookup_nil in Hi. }
  simpl in Hrun. pose proof (mergeSubprovider_step p σ Hwf) as Hstep.
  unfold go_bind in Hrun.
  destruct (mergeSubprovider p σ) as [σ1 [[]|pv]]; [|done].
  destruct Hstep as (Hwf1 & HdS & HdR & HdD & HkS & HkR & HkD).
  destruct (IH σ1 Hwf1 Hrun) as [Hrest Hpair].
  assert (∀ q, q ∈ rest →
     (dom (Subprovider.Schema q) ## KS σ ∧
      dom (Subprovider.Resources q) ## KR σ ∧
      dom (Subprovider.DataSources q) ## KD σ) ∧ ¬ key_clash p q) as Hq.
  { intros q Hin. destruct (Hrest q Hin) as (H1 & H2 & H3).
    rewrite HkS in H1. rewrite HkR in H2. rewrite HkD in H3.
    apply disjoint_union_r in H1 as [H1p H1s].
    apply disjoint_union_r in H2 as [H2p H2s].
    apply disjoint_union_r in H3 as [H3p H3s].
    split; [done|].
    intros [(k & Hkp & Hkq)|[(k & Hkp & Hkq)|(k & Hkp & Hkq)]].
    - by apply (proj1 (elem_of_disjoint _ _) H1p k).
    - by apply (proj1 (elem_of_disjoint _ _) H2p k).
    - by apply (proj1 (elem_of_disjoint _ _) H3p k). }
  split.
  - intros q [->|Hin]%elem_of_cons; [done|]. by apply Hq.
  - intros [|i] [|j] q1 q2 Hlt Hi Hj; simpl in *; try lia.
    + injection Hi as <-. apply Hq. by eapply list_elem_of_lookup_2.
    + eapply (Hpair i j); [lia|done..].
Qed.

(** Any panic of the loop carries a duplicate-key error. *)
Lemma mergeSubproviders_Panic provs σ σ' pv :
  instance_at l lS lR lD σ →
  mergeSubproviders provs σ = (σ', Panic pv) →
  ∃ k, pv = PanicErr (Errorf_w ErrDuplicateSchemaKey k).
Proof using HRD.
  revert σ. induction provs as [|p rest IH]; intros σ Hwf Hrun; [done|].
  simpl in Hrun. pose proof (mergeSubprovider_step p σ Hwf) as Hstep.
  unfold go_bind in Hrun.
  destruct (mergeSubprovider p σ) as [σ1 [[]|pv1]].
  - destruct Hstep as [Hwf1 _]. by eapply IH.
  - by injection Hrun as _ <-.
Qed.

End LoopFacts.

Section InitFacts.
Context `{Runtime}.

Lemma newInstance_at σ :
  ∃ l lS lR lD,
    lR ≠ lD ∧
    newInstance σ = ((newInstance σ).1, Return tt) ∧
    instance_at l lS lR lD (newInstance σ).1.
Proof.
  unfold newInstance, alloc. simpl.
  eexists _, _, (fresh (dom (resources σ))), _. split_and!.
  - intros Heq.
    apply (is_fresh (dom (<[fresh (dom (resources σ)) := ∅]> (resources σ)))).
    rewrite <-Heq, dom_insert_L. apply elem_of_union_l. by apply elem_of_singleton.
  - done.
  - split; [done|]. eexists. split; [apply lookup_insert_eq|done].
Qed.

Lemma newCache_cases l lS lR lD σ :
  instance_at l lS lR lD σ →
  (∃ e, NewBigCache tenMinutes = inr e ∧ newCache σ = (σ, Panic (PanicErr e))) ∨
  (∃ σ', newCache σ = (σ', Return tt) ∧ instance_at l lS lR lD σ').
Proof.
  intros (Hi & p & Hp & HS & HR & HD). unfold newCache.
  destruct (NewBigCache tenMinutes) as [c|e]; [right|left; by eauto].
  erewrite storeInstance_at by done. eexists. split; [done|].
  split; [done|]. eexists. split; [apply lookup_insert_eq|done].
Qed.

(** With two clashing sub-providers in the list, the initialisation body
    cannot be left normally. *)
Lemma initialize_clash provs σ i j p q :
  i < j → provs !! i = Some p → provs !! j = Some q → key_clash p q →
  ∃ σ' pv,
    initialize provs σ = (σ', Panic pv) ∧
    ((∃ e, NewBigCache tenMinutes = inr e ∧ pv = PanicErr e) ∨
     (∃ k, pv = PanicErr (Errorf_w ErrDuplicateSchemaKey k))).
Proof.
  intros Hlt Hi Hj Hclash. unfold initialize.
  erewrite go_bind_Return by reflexivity.
  destruct (newInstance_at (count_init σ)) as (l & lS & lR & lD & HRD & Hnew & Hat).
  erewrite go_bind_Return by exact Hnew.
  destruct (newCache_cases _ _ _ _ _ Hat) as [(e & He & Hc)|(σ1 & Hc & Hat1)].
  { erewrite go_bind_Panic by exact Hc. by eauto 10. }
  erewrite go_bind_Return by exact Hc.
  destruct (mergeSubproviders provs σ1) as [σ2 [[]|pv]] eqn:Hloop.
  - exfalso.
    destruct (mergeSubproviders_Return l lS lR lD HRD _ _ _ Hat1 Hloop) as [_ Hpair].
    by apply (Hpair i j p q).
  - erewrite go_bind_Panic by exact Hloop.
    destruct (mergeSubproviders_Panic l lS lR lD HRD _ _ _ _ Hat1 Hloop) as [k ->].
    by eauto 10.
Qed.

End InitFacts.

(** ** Sample runs *)

(** Assigning through a nil destination panics, as in Go. *)
Example mergeSchema_nil_destination :
  (mergeSchema (H:=sorted_runtime) 0 clashingSchema nilmap baseStore).2
    = Panic PanicNilMapAssign.
Proof. reflexivity. Qed.

(** A nil destination and an empty source: nothing to assign, nil comes back. *)
Example mergeSchema_nil_empty :
  mergeSchema (H:=sorted_runtime) 0 ∅ nilmap baseStore
    = (baseStore, Return (nilmap, None)).
Proof. reflexivity. Qed.

(** A failing cache constructor aborts the bootstrap before any merge. *)
Example Provider_cache_failure :
  (Provider (H:=failing_cache_runtime) [dnsProvider] start).2
    = Panic (PanicErr (ErrExternal "bigcache")).
Proof. reflexivity. Qed.

(** Two compatible sub-providers: the provider function comes back and
    yields the instance allocated by the bootstrap. *)
Example Provider_two_subproviders :
  let r := Provider (H:=sorted_runtime) [dnsProvider; gtmProvider] start in
  (match r.2 with Return f => Some (f r.1) | Panic _ => None end)
    = Some (Return (addrProvider 1%positive)) ∧
  dom (contents (schemas r.1) (mapat 1%positive))
    = {[ "edgerc"; "config_section"; "dns_section"; "gtm_section" ]}.
Proof. split; [reflexivity|]. by vm_compute. Qed.

(** * The claims about [provider.go] *)

(** C5.  When two of the sub-providers handed to [Provider] register the
    same key in their schemas, in their resources or in their data sources,
    the first call of [Provider] (the one that runs the initialisation)
    does not return a provider: it panics, with the duplicate-key error of
    the merge (or earlier still, with the error of the cache constructor).
    The [once] flag is set all the same. *)
Theorem Provider_key_clash_panics `{Runtime}
    (provs : list Subprovider.t) (σ : process) (i j : nat) (p q : Subprovider.t) :
  once σ = false →
  i < j → provs !! i = Some p → provs !! j = Some q →
  key_clash p q →
  ∃ pv, (Provider provs σ).2 = Panic pv ∧
        ((∃ e, NewBigCache tenMinutes = inr e ∧ pv = PanicErr e) ∨
         (∃ k, pv = PanicErr (Errorf_w ErrDuplicateSchemaKey k))) ∧
        once (Provider provs σ).1 = true.
Proof.
  intros Hd Hlt Hi Hj Hclash.
  destruct (initialize_clash provs σ i j p q Hlt Hi Hj Hclash) as (σ' & pv & Hinit & Hpv).
  exists pv. split_and!; [|done|apply Provider_sets_once].
  unfold Provider, go_bind, onceDo. by rewrite Hd, Hinit.
Qed.

Lemma Provider_key_clash_panics_witness :
  ∃ pv, (Provider (H:=sorted_runtime) [dnsProvider; gtmProvider; rivalProvider] start).2
          = Panic pv ∧
        ((∃ e, NewBigCache (Runtime:=sorted_runtime) tenMinutes = inr e ∧ pv = PanicErr e) ∨
         (∃ k, pv = PanicErr (Errorf_w ErrDuplicateSchemaKey k))) ∧
        once (Provider (H:=sorted_runtime)
                [dnsProvider; gtmProvider; rivalProvider] start).1 = true.
Proof.
  apply (Provider_key_clash_panics (H:=sorted_runtime)
           [dnsProvider; gtmProvider; rivalProvider] start 0 2 dnsProvider rivalProvider).
  - reflexivity.
  - lia.
  - reflexivity.
  - reflexivity.
  - right. right. exists "akamai_authorities_set".
    split; apply elem_of_dom; eexists; reflexivity.
Defined.



(** C8.  Whatever the first call of [Provider] did, a later call leaves the
    process state exactly as it found it and returns the provider
    function, for any sub-providers it is given: nothing is merged or
    registered and nothing panics, so the provider reflects the first
    call's sub-providers only. *)
Theorem Provider_later_calls_discard `{Runtime} (σ : process)
    (first : list Subprovider.t) (later : list (list Subprovider.t))
    (provs : list Subprovider.t) :
  let σ1 := (Provider first σ).1 in
  Provider provs σ1 = (σ1, Return providerFunc) ∧
  ProviderCalls later σ1 = (σ1, (λ _, Return providerFunc) <$> later).
Proof.
  simpl. pose proof (Provider_sets_once first σ) as Hd.
  split; [by apply Provider_done|by apply ProviderCalls_done].
Qed.

Lemma Provider_later_calls_discard_witness :
  let σ1 := (Provider (H:=sorted_runtime) [dnsProvider] start).1 in
  Provider (H:=sorted_runtime) [rivalProvider; rivalProvider] σ1
    = (σ1, Return providerFunc) ∧
  ProviderCalls (H:=sorted_runtime) [[gtmProvider]; [dnsProvider]] σ1
    = (σ1, (λ _, Return providerFunc) <$> [[gtmProvider]; [dnsProvider]]).
Proof.
  exact (Provider_later_calls_discard (H:=sorted_runtime) start [dnsProvider]
           [[gtmProvider]; [dnsProvider]] [rivalProvider; rivalProvider]).
Defined.

(** C9.  [mergeSchema] and [mergeResource] return an error exactly when
    the source and the destination share a key; when they return without
    one, the map returned is the destination reference, its key set is the
    union of the two key sets, every entry the destination had is
    unchanged, and every source entry is present. *)
Theorem merge_error_iff_shared_key `{Runtime} :
  merge_contract mergeSchema ∧ merge_contract mergeResource.
Proof. split; apply mergeRange_contract. Qed.

Lemma merge_error_iff_shared_key_witness :
  (∃ m e, (mergeSchema (H:=sorted_runtime) 0 clashingSchema (mapat 1%positive) baseStore).2
            = Return (m, Some e)) ∧
  dom (contents
         (mergeSchema (H:=sorted_runtime) 0
            (Subprovider.Schema dnsProvider) (mapat 1%positive) baseStore).1
         (mapat 1%positive))
    = dom (Subprovider.Schema dnsProvider) ∪ dom (contents baseStore (mapat 1%positive)).
Proof.
  split.
  - apply (proj1 (merge_error_iff_shared_key (H:=sorted_runtime))
             0 clashingSchema (mapat 1%positive) baseStore).
    exists "config_section". split; apply elem_of_dom; eexists; reflexivity.
  - apply (proj2 (proj1 (merge_error_iff_shared_key (H:=sorted_runtime))
             0 (Subprovider.Schema dnsProvider) (mapat 1%positive) baseStore)
             (mapat 1%positive)).
    reflexivity.
Defined.

(** C10.  [mergeSchema] and [mergeResource] write into the destination as
    they go: when a duplicate-key error is returned, every source entry
    visited before the duplicate key is in the destination map, which has
    therefore changed unless the duplicate was the first key visited. *)
Theorem merge_mutates_before_error `{Runtime} :
  merge_not_atomic mergeSchema ∧ merge_not_atomic mergeResource.
Proof. split; apply mergeRange_not_atomic. Qed.

Lemma merge_mutates_before_error_witness :
  ∃ pre k v post,
    range (Runtime:=sorted_runtime) 0 clashingSchema = pre ++ (k, v) :: post ∧
    Errorf_w ErrDuplicateSchemaKey "config_section" = Errorf_w ErrDuplicateSchemaKey k ∧
    is_Some (contents baseStore (mapat 1%positive) !! k) ∧
    (∀ k' v', (k', v') ∈ pre →
       contents baseStore (mapat 1%positive) !! k' = None ∧
       contents (mergeSchema (H:=sorted_runtime) 0 clashingSchema
                   (mapat 1%positive) baseStore).1 (mapat 1%positive) !! k' = Some v') ∧
    contents (mergeSchema (H:=sorted_runtime) 0 clashingSchema
                (mapat 1%positive) baseStore).1 (mapat 1%positive)
      = list_to_map pre ∪ contents baseStore (mapat 1%positive) ∧
    (pre ≠ [] →
     contents (mergeSchema (H:=sorted_runtime) 0 clashingSchema
                 (mapat 1%positive) baseStore).1 (mapat 1%positive)
       ≠ contents baseStore (mapat 1%positive)).
Proof.
  apply (proj1 (merge_mutates_before_error (H:=sorted_runtime))
           0 clashingSchema (mapat 1%positive) baseStore nilmap
           (Errorf_w ErrDuplicateSchemaKey "config_section")).
  reflexivity.
Defined.

(** * The claims about the DNS record reconciler *)

Section ReconcilerFacts.
Context {C : Type} {client : dns.Client C}.

(** What [Read] adds to the call log: one [GetRecord], no write. *)
Lemma Read_calls (S : RecordSpec) (s : session C) :
  calls (Read S s).1 =
    calls s ++ [dns.CallGetRecord (zone S) (name S) (recordtype S)].
Proof.
  unfold Read, op_bind, getRecord.
  destruct (dns.GetRecord _ _ _ (remote s)) as [c [r|e]]; simpl; [done|].
  by destruct (dns.isNotFound e).
Qed.

Lemma Read_result (S : RecordSpec) (s : session C) :
  (Read S s).2 =
    match (dns.GetRecord (zone S) (name S) (recordtype S) (remote s)).2 with
    | inl r => inl (Some r)
    | inr e => if dns.isNotFound e then inl None else inr e
    end.
Proof.
  unfold Read, op_bind, getRecord.
  destruct (dns.GetRecord _ _ _ (remote s)) as [c [r|e]]; simpl; [done|].
  by destruct (dns.isNotFound e).
Qed.

(** A write followed by [Read]: the log gains the write, and a
    [GetRecord] if the write succeeded. *)
Lemma write_then_Read_writes (S : RecordSpec) (w : Op unit) (s : session C)
    (ev : dns.call) :
  dns.isWrite ev = true →
  calls (w s).1 = calls s ++ [ev] →
  writes (calls (op_bind (λ _, Read S) w s).1) = writes (calls s) ++ [ev].
Proof.
  intros Hev Hw. unfold op_bind.
  destruct (w s) as [s' [[]|e]]; simpl in *.
  - rewrite Read_calls, Hw. unfold writes.
    rewrite !List.filter_app. simpl. rewrite Hev. by rewrite app_nil_r.
  - rewrite Hw. unfold writes. rewrite List.filter_app. simpl. by rewrite Hev.
Qed.

Lemma createRecord_calls b z (s : session C) :
  calls (createRecord b z s).1 = calls s ++ [dns.CallCreateRecord b z].
Proof. unfold createRecord. by destruct (dns.CreateRecord b z (remote s)). Qed.

Lemma updateRecord_calls b z (s : session C) :
  calls (updateRecord b z s).1 = calls s ++ [dns.CallUpdateRecord b z].
Proof. unfold updateRecord. by destruct (dns.UpdateRecord b z (remote s)). Qed.

Lemma Create_unfold_get (S : RecordSpec) (c c' : C) r :
  dns.GetRecord (zone S) (name S) (recordtype S) c = (c', r) →
  run (Create S) c =
    match r with
    | inr e =>
        if dns.isNotFound e then
          op_bind (λ _, Read S)
            (createRecord
               (bindRecord S (dns.ProcessRdata (rawValues S) (recordtype S)))
               (zone S))
        else op_fail e
    | inl existing =>
        match dns.ProcessRdata (dns.Target existing) (recordtype S) with
        | [] =>
            op_bind (λ _, Read S)
              (createRecord (bindRecord S (rawValues S)) (zone S))
        | t =>
            op_bind (λ _, Read S)
              (updateRecord (bindRecord S t) (zone S))
        end
    end {| remote := c';
           calls := [dns.CallGetRecord (zone S) (name S) (recordtype S)] |}.
Proof.
  intros Hget. unfold run, Create, op_bind at 1, getRecord. simpl.
  by rewrite Hget.
Qed.

End ReconcilerFacts.

Section ReconcilerWrites.
Context {C : Type} {client : dns.Client C}.

Lemma Read_remote (S : RecordSpec) (s : session C) :
  remote (Read S s).1 =
    (dns.GetRecord (zone S) (name S) (recordtype S) (remote s)).1.
Proof.
  unfold Read, op_bind, getRecord.
  destruct (dns.GetRecord _ _ _ (remote s)) as [c [r|e]]; simpl; [done|].
  by destruct (dns.isNotFound e).
Qed.

(** [createRecord] hands the payload to the client, and the operation's
    result and final client state are the client's. *)
Lemma createRecord_then_Read (S : RecordSpec) b z (s : session C) :
  (op_bind (λ _, Read S) (createRecord b z) s).2
    = afterWrite S (dns.CreateRecord b z (remote s)) ∧
  remote (op_bind (λ _, Read S) (createRecord b z) s).1
    = remoteAfterWrite S (dns.CreateRecord b z (remote s)).
Proof.
  unfold op_bind, createRecord, afterWrite, remoteAfterWrite.
  destruct (dns.CreateRecord b z (remote s)) as [c2 [e2|]]; simpl; [done|].
  by rewrite Read_result, Read_remote.
Qed.

Lemma updateRecord_then_Read (S : RecordSpec) b z (s : session C) :
  (op_bind (λ _, Read S) (updateRecord b z) s).2
    = afterWrite S (dns.UpdateRecord b z (remote s)) ∧
  remote (op_bind (λ _, Read S) (updateRecord b z) s).1
    = remoteAfterWrite S (dns.UpdateRecord b z (remote s)).
Proof.
  unfold op_bind, updateRecord, afterWrite, remoteAfterWrite.
  destruct (dns.UpdateRecord b z (remote s)) as [c2 [e2|]]; simpl; [done|].
  by rewrite Read_result, Read_remote.
Qed.

End ReconcilerWrites.

(** C1.  When the Read of the spec's triple reports not-found, Create
    issues exactly one write, a [CreateRecord] on the spec's zone whose
    values are the transform of the spec's raw values.  The write is the
    client's: the result of Create and the client state it leaves are
    those of the client's [CreateRecord] on that payload, followed by the
    Read if the write succeeded. *)
Theorem Create_not_found_one_CreateRecord {C : Type} {client : dns.Client C}
    (S : RecordSpec) (c c' : C) (e : dns.Error) :
  dns.GetRecord (zone S) (name S) (recordtype S) c = (c', inr e) →
  dns.isNotFound e = true →
  let b := bindRecord S (dns.ProcessRdata (rawValues S) (recordtype S)) in
  writes (calls (run (Create S) c).1) = [dns.CallCreateRecord b (zone S)] ∧
  length (List.filter dns.isCreate (calls (run (Create S) c).1)) = 1 ∧
  (run (Create S) c).2 = afterWrite S (dns.CreateRecord b (zone S) c') ∧
  remote (run (Create S) c).1 = remoteAfterWrite S (dns.CreateRecord b (zone S) c').
Proof.
  intros Hget Hnf. cbv zeta. rewrite (Create_unfold_get S c c' _ Hget), Hnf.
  destruct (createRecord_then_Read S
              (bindRecord S (dns.ProcessRdata (rawValues S) (recordtype S))) (zone S)
              {| remote := c';
                 calls := [dns.CallGetRecord (zone S) (name S) (recordtype S)] |})
    as [Hres Hrem].
  split_and!; [|..|exact Hres|exact Hrem].
  - by rewrite (write_then_Read_writes S _ _ (dns.CallCreateRecord _ _) eq_refl
                  (createRecord_calls _ _ _)).
  - unfold op_bind, createRecord. simpl.
    destruct (dns.CreateRecord _ _ c') as [c2 [e2|]]; simpl; [done|].
    by rewrite Read_calls.
Qed.

Lemma Create_not_found_one_CreateRecord_witness :
  let b := bindRecord aSpec
             (dns.ProcessRdata (Client:=tableClient) (rawValues aSpec) (recordtype aSpec)) in
  writes (calls (run (Create (client:=tableClient) aSpec) ∅).1)
    = [dns.CallCreateRecord b (zone aSpec)] ∧
  length (List.filter dns.isCreate
            (calls (run (Create (client:=tableClient) aSpec) ∅).1)) = 1 ∧
  (run (Create (client:=tableClient) aSpec) ∅).2
    = afterWrite (client:=tableClient) aSpec
        (dns.CreateRecord (Client:=tableClient) b (zone aSpec) ∅) ∧
  remote (run (Create (client:=tableClient) aSpec) ∅).1
    = remoteAfterWrite (client:=tableClient) aSpec
        (dns.CreateRecord (Client:=tableClient) b (zone aSpec) ∅).
Proof.
  apply (Create_not_found_one_CreateRecord (client:=tableClient) aSpec ∅ ∅ notFound).
  - reflexivity.
  - reflexivity.
Defined.

(** On the zone table the record is really there afterwards, and it is
    the one Create reports as tracked. *)
Example Create_not_found_on_table :
  (run (Create (client:=tableClient) aSpec) ∅).2 = inl (Some aRec) ∧
  remote (run (Create (client:=tableClient) aSpec) ∅).1
    !! (zone aSpec, name aSpec, recordtype aSpec) = Some aRec.
Proof. split; reflexivity. Qed.

(** C2.  When the Read of the spec's triple returns a record and the
    transform of that record's values is not empty, Create issues exactly
    one write, an [UpdateRecord] carrying the transformed values, and no
    [CreateRecord]; its result is that of the write followed by the Read,
    so the record's existence is never reported as an error. *)
Theorem Create_existing_one_UpdateRecord {C : Type} {client : dns.Client C}
    (S : RecordSpec) (c c' : C) (existing : dns.RecordBody) :
  dns.GetRecord (zone S) (name S) (recordtype S) c = (c', inl existing) →
  dns.ProcessRdata (dns.Target existing) (recordtype S) ≠ [] →
  let b := bindRecord S (dns.ProcessRdata (dns.Target existing) (recordtype S)) in
  writes (calls (run (Create S) c).1) = [dns.CallUpdateRecord b (zone S)] ∧
  List.filter dns.isCreate (calls (run (Create S) c).1) = [] ∧
  (run (Create S) c).2 =
    match (dns.UpdateRecord b (zone S) c').2 with
    | Some e => inr e
    | None =>
        match (dns.GetRecord (zone S) (name S) (recordtype S)
                 (dns.UpdateRecord b (zone S) c').1).2 with
        | inl r => inl (Some r)
        | inr e => if dns.isNotFound e then inl None else inr e
        end
    end.
Proof.
  intros Hget Hne. simpl. rewrite (Create_unfold_get S c c' _ Hget).
  destruct (dns.ProcessRdata (dns.Target existing) (recordtype S)) as [|v t] eqn:Ht;
    [done|].
  split_and!.
  - by rewrite (write_then_Read_writes S _ _ (dns.CallUpdateRecord _ _) eq_refl (updateRecord_calls _ _ _)).
  - unfold op_bind, updateRecord. simpl.
    destruct (dns.UpdateRecord _ _ c') as [c2 [e2|]]; simpl; [done|].
    by rewrite Read_calls.
  - unfold op_bind, updateRecord. simpl.
    destruct (dns.UpdateRecord _ _ c') as [c2 [e2|]]; simpl; [done|].
    by rewrite Read_result.
Qed.

Lemma Create_existing_one_UpdateRecord_witness :
  let b := bindRecord aSpec
             (dns.ProcessRdata (Client:=mockdns) (dns.Target aRec) (recordtype aSpec)) in
  writes (calls (run (Create (client:=mockdns) aSpec) [inl aRec]).1)
    = [dns.CallUpdateRecord b (zone aSpec)] ∧
  List.filter dns.isCreate (calls (run (Create (client:=mockdns) aSpec) [inl aRec]).1) = [] ∧
  (run (Create (client:=mockdns) aSpec) [inl aRec]).2 =
    match (dns.UpdateRecord (Client:=mockdns) b (zone aSpec) [inl aRec]).2 with
    | Some e => inr e
    | None =>
        match (dns.GetRecord (Client:=mockdns) (zone aSpec) (name aSpec) (recordtype aSpec)
                 (dns.UpdateRecord (Client:=mockdns) b (zone aSpec) [inl aRec]).1).2 with
        | inl r => inl (Some r)
        | inr e => if dns.isNotFound e then inl None else inr e
        end
    end.
Proof.
  apply (Create_existing_one_UpdateRecord (client:=mockdns) aSpec [inl aRec] [inl aRec] aRec).
  - reflexivity.
  - simpl. discriminate.
Defined.

(** C3, as the reconciler behaves.  When the Read returns a record whose
    values the transform maps to the empty list, Create takes the save
    path: it issues exactly one write, a [CreateRecord] carrying the
    spec's own declared raw values, and the result and the client state
    are those of the client's [CreateRecord] on that payload followed by
    the Read.  Every write carries the spec's values; when the spec
    declares at least one value, no write carries the empty transformed
    value. *)
Theorem Create_empty_transform_saves_spec_values {C : Type} {client : dns.Client C}
    (S : RecordSpec) (c c' : C) (existing : dns.RecordBody) :
  dns.GetRecord (zone S) (name S) (recordtype S) c = (c', inl existing) →
  dns.ProcessRdata (dns.Target existing) (recordtype S) = [] →
  let b := bindRecord S (rawValues S) in
  writes (calls (run (Create S) c).1) = [dns.CallCreateRecord b (zone S)] ∧
  (∀ w, w ∈ writes (calls (run (Create S) c).1) → dns.payload w = rawValues S) ∧
  (rawValues S ≠ [] →
   ∀ w, w ∈ writes (calls (run (Create S) c).1) →
        dns.payload w ≠ dns.ProcessRdata (dns.Target existing) (recordtype S)) ∧
  (run (Create S) c).2 = afterWrite S (dns.CreateRecord b (zone S) c') ∧
  remote (run (Create S) c).1 = remoteAfterWrite S (dns.CreateRecord b (zone S) c').
Proof.
  intros Hget Ht. cbv zeta. rewrite (Create_unfold_get S c c' _ Hget), Ht.
  destruct (createRecord_then_Read S (bindRecord S (rawValues S)) (zone S)
              {| remote := c';
                 calls := [dns.CallGetRecord (zone S) (name S) (recordtype S)] |})
    as [Hres Hrem].
  rewrite (write_then_Read_writes S _ _ (dns.CallCreateRecord _ _) eq_refl
             (createRecord_calls _ _ _)).
  simpl. split_and!; [done| | |exact Hres|exact Hrem].
  - by intros w ->%list_elem_of_singleton.
  - by intros Hne w ->%list_elem_of_singleton.
Qed.

Lemma Create_empty_transform_saves_spec_values_witness :
  let z : zoneTable :=
    {[ (zone aSpec, name aSpec, recordtype aSpec) := bindRecord aSpec [""] ]} in
  let b := bindRecord aSpec (rawValues aSpec) in
  writes (calls (run (Create (client:=tableClient) aSpec) z).1)
    = [dns.CallCreateRecord b (zone aSpec)] ∧
  (∀ w, w ∈ writes (calls (run (Create (client:=tableClient) aSpec) z).1)
        → dns.payload w = rawValues aSpec) ∧
  (rawValues aSpec ≠ [] →
   ∀ w, w ∈ writes (calls (run (Create (client:=tableClient) aSpec) z).1)
        → dns.payload w ≠
          dns.ProcessRdata (Client:=tableClient)
            (dns.Target (bindRecord aSpec [""])) (recordtype aSpec)) ∧
  (run (Create (client:=tableClient) aSpec) z).2
    = afterWrite (client:=tableClient) aSpec
        (dns.CreateRecord (Client:=tableClient) b (zone aSpec) z) ∧
  remote (run (Create (client:=tableClient) aSpec) z).1
    = remoteAfterWrite (client:=tableClient) aSpec
        (dns.CreateRecord (Client:=tableClient) b (zone aSpec) z).
Proof.
  apply (Create_empty_transform_saves_spec_values (client:=tableClient) aSpec
           {[ (zone aSpec, name aSpec, recordtype aSpec) := bindRecord aSpec [""] ]}
           {[ (zone aSpec, name aSpec, recordtype aSpec) := bindRecord aSpec [""] ]}
           (bindRecord aSpec [""])).
  - reflexivity.
  - reflexivity.
Defined.

(** C3 as stated does not hold for a spec that declares no values: a
    record exists at its triple, the transform of that record's values is
    empty, and the one write Create issues carries the empty list, which
    is the empty transformed value. *)
Lemma Create_empty_spec_writes_empty_value :
  dns.GetRecord (Client:=tableClient)
      (zone emptySpec) (name emptySpec) (recordtype emptySpec) staleZone
    = (staleZone, inl (bindRecord emptySpec [""])) ∧
  dns.ProcessRdata (Client:=tableClient)
      (dns.Target (bindRecord emptySpec [""])) (recordtype emptySpec) = [] ∧
  writes (calls (run (Create (client:=tableClient) emptySpec) staleZone).1)
    = [dns.CallCreateRecord (bindRecord emptySpec []) (zone emptySpec)] ∧
  ¬ (∀ w, w ∈ writes (calls (run (Create (client:=tableClient) emptySpec) staleZone).1) →
          dns.payload w ≠
          dns.ProcessRdata (Client:=tableClient)
            (dns.Target (bindRecord emptySpec [""])) (recordtype emptySpec)).
Proof.
  split_and!; [reflexivity..|].
  intros Hall.
  apply (Hall (dns.CallCreateRecord (bindRecord emptySpec []) (zone emptySpec)));
    [|reflexivity].
  change (writes (calls (run (Create (client:=tableClient) emptySpec) staleZone).1))
    with [dns.CallCreateRecord (bindRecord emptySpec []) (zone emptySpec)].
  by apply list_elem_of_singleton.
Qed.



(** C7.  Two Updates of an unchanged spec in succession each hand the
    client exactly one [UpdateRecord], and both carry the same payload, the
    transform of the spec's values: the payload does not depend on the
    client's state, on what the first Update left behind, or on whether the
    first Update succeeded.  The result and the client state of each run
    are those of the client's [UpdateRecord] on that payload followed by
    the Read, the second run starting from the state the first one left. *)
Theorem Update_idempotent {C : Type} {client : dns.Client C}
    (S : RecordSpec) (c : C) :
  let b := bindRecord S (dns.ProcessRdata (rawValues S) (recordtype S)) in
  let first := run (Update S) c in
  let second := run (Update S) (remote first.1) in
  writes (calls first.1) = [dns.CallUpdateRecord b (zone S)] ∧
  writes (calls second.1) = writes (calls first.1) ∧
  first.2 = afterWrite S (dns.UpdateRecord b (zone S) c) ∧
  remote first.1 = remoteAfterWrite S (dns.UpdateRecord b (zone S) c) ∧
  second.2 = afterWrite S (dns.UpdateRecord b (zone S) (remote first.1)) ∧
  remote second.1
    = remoteAfterWrite S (dns.UpdateRecord b (zone S) (remote first.1)).
Proof.
  cbv zeta. unfold run, Update.
  rewrite !(write_then_Read_writes S _ _ (dns.CallUpdateRecord _ _) eq_refl
              (updateRecord_calls _ _ _)).
  split_and!; try done;
    first [ exact (proj1 (updateRecord_then_Read S _ _ _))
          | exact (proj2 (updateRecord_then_Read S _ _ _)) ].
Qed.

Lemma Update_idempotent_witness :
  let b := bindRecord soaSpec
             (dns.ProcessRdata (Client:=flakyClient) (rawValues soaSpec)
                (recordtype soaSpec)) in
  let first := run (Update (client:=flakyClient) soaSpec) 0 in
  let second := run (Update (client:=flakyClient) soaSpec) (remote first.1) in
  writes (calls first.1) = [dns.CallUpdateRecord b (zone soaSpec)] ∧
  writes (calls second.1) = writes (calls first.1) ∧
  first.2 = afterWrite (client:=flakyClient) soaSpec
              (dns.UpdateRecord (Client:=flakyClient) b (zone soaSpec) 0) ∧
  remote first.1
    = remoteAfterWrite (client:=flakyClient) soaSpec
        (dns.UpdateRecord (Client:=flakyClient) b (zone soaSpec) 0) ∧
  second.2 = afterWrite (client:=flakyClient) soaSpec
               (dns.UpdateRecord (Client:=flakyClient) b (zone soaSpec) (remote first.1)) ∧
  remote second.1
    = remoteAfterWrite (client:=flakyClient) soaSpec
        (dns.UpdateRecord (Client:=flakyClient) b (zone soaSpec) (remote first.1)).
Proof.
  exact (Update_idempotent (client:=flakyClient) soaSpec 0).
Defined.

(** On the flaky client the two runs end differently (the first write is
    refused, the second accepted) and leave different client states, yet
    the client was handed the same payload twice. *)
Example Update_twice_on_flaky_client :
  let first := run (Update (client:=flakyClient) soaSpec) 0 in
  let second := run (Update (client:=flakyClient) soaSpec) (remote first.1) in
  first.2 = inr serverError ∧ second.2 = inl (Some soaRec) ∧
  remote first.1 = 1 ∧ remote second.1 = 2 ∧
  writes (calls second.1) = writes (calls first.1).
Proof. by split_and!. Qed.

(** * Further properties of [provider.go] *)

(** ** The merge functions *)

Section MergeMore.
Context `{Runtime} {V : Type}.

Lemma range_empty seed : range seed (∅ : gmap string V) = [].
Proof.
  apply Permutation_nil_r. rewrite (range_perm V seed ∅). by rewrite map_to_list_empty.
Qed.

Lemma range_nonempty seed (m : gmap string V) : m ≠ ∅ → range seed m ≠ [].
Proof.
  intros Hne Hnil. apply Hne. rewrite <-(list_to_map_range seed m). by rewrite Hnil.
Qed.

Lemma mergeRange_footprint :
  merge_footprint (λ seed (from : gmap string V) to h, mergeRange (range seed from) to h).
Proof.
  intros seed from to h. simpl.
  destruct (mergeRange (range seed from) to h) as [h' r] eqn:Hrun.
  destruct (mergeRange_inv _ _ _ _ _ (range_NoDup seed from) Hrun)
    as (pre & post & Hsplit & Hfresh & Hc & Hoth & _ & Hr).
  simpl. split_and!.
  - done.
  - intros k v Hk. rewrite Hc. apply lookup_union_Some_raw. right. split; [|done].
    apply not_elem_of_list_to_map_1. intros Hin. apply Hfresh in Hin. congruence.
  - intros k v. rewrite Hc. intros [Hpre|[_ Hold]]%lookup_union_Some_raw; [right|by left].
    apply elem_of_list_to_map_2 in Hpre. apply (range_elem seed).
    rewrite Hsplit. apply elem_of_app. by left.
  - intros m e ->. destruct Hr as (-> & k & v & post' & -> & -> & Hsome).
    split; [done|]. exists k. split_and!; [done| |by apply elem_of_dom].
    apply (range_keys seed). rewrite Hsplit, fmap_app, elem_of_app.
    right. rewrite fmap_cons. by left.
Qed.

Lemma mergeRange_degenerate :
  merge_degenerate (λ seed (from : gmap string V) to h, mergeRange (range seed from) to h).
Proof.
  split.
  - intros seed to h. by rewrite range_empty.
  - intros seed from h Hne. pose proof (range_nonempty seed from Hne) as Hr.
    by destruct (range seed from) as [|[k v] rest].
Qed.

(** Two merges of fixed source contents into one allocated map. *)
Lemma mergeRange_twice_values (seed1 seed2 seed3 seed4 : nat)
    (from1 from2 : gmap string V) (l : loc) (h : store V) :
  let r1 := mergeRange (range seed1 from1) (mapat l) h in
  let r2 := mergeRange (range seed2 from2) (mapat l) r1.1 in
  let s1 := mergeRange (range seed3 from2) (mapat l) h in
  let s2 := mergeRange (range seed4 from1) (mapat l) s1.1 in
  ((r1.2 = Return (mapat l, None) ∧ r2.2 = Return (mapat l, None)) ↔
   (dom from1 ## dom (contents h (mapat l)) ∧
    dom from2 ## dom (contents h (mapat l)) ∧
    dom from1 ## dom from2)) ∧
  (r1.2 = Return (mapat l, None) → r2.2 = Return (mapat l, None) →
   contents r2.1 (mapat l) = from2 ∪ from1 ∪ contents h (mapat l) ∧
   s1.2 = Return (mapat l, None) ∧ s2.2 = Return (mapat l, None) ∧
   ∀ r, contents s2.1 r = contents r2.1 r).
Proof.
  simpl.
  destruct (mergeRange (range seed1 from1) (mapat l) h) as [h1 r1] eqn:E1. simpl.
  destruct (mergeRange (range seed2 from2) (mapat l) h1) as [h2 r2] eqn:E2. simpl.
  destruct (mergeRange (range seed3 from2) (mapat l) h) as [g1 q1] eqn:F1. simpl.
  destruct (mergeRange (range seed4 from1) (mapat l) g1) as [g2 q2] eqn:F2. simpl.
  apply mergeRange_cases in E1 as [Ef1 E1].
  apply mergeRange_cases in E2 as [Ef2 E2].
  apply mergeRange_cases in F1 as [Ff1 F1].
  apply mergeRange_cases in F2 as [Ff2 F2].
  split.
  - split.
    + intros [-> ->].
      destruct E1 as [(_ & Hc1 & Hd1)|(k & ? & _)]; [|done].
      destruct E2 as [(_ & Hc2 & Hd2)|(k & ? & _)]; [|done].
      rewrite Hc1, dom_union_L in Hd2. apply disjoint_union_r in Hd2 as [Hd21 Hd2h].
      by split_and!.
    + intros (Hd1 & Hd2 & Hd12).
      destruct E1 as [(-> & Hc1 & _)|(k & -> & Hk1 & Hk2)].
      2: { exfalso. by apply (proj1 (elem_of_disjoint _ _) Hd1 k). }
      split; [done|].
      destruct E2 as [(-> & _)|(k & -> & Hk1 & Hk2)]; [done|exfalso].
      rewrite Hc1, dom_union_L in Hk2. apply elem_of_union in Hk2 as [Hk2|Hk2].
      * by apply (proj1 (elem_of_disjoint _ _) Hd12 k).
      * by apply (proj1 (elem_of_disjoint _ _) Hd2 k).
  - intros -> ->.
    destruct E1 as [(_ & Hc1 & Hd1)|(k & ? & _)]; [|done].
    destruct E2 as [(_ & Hc2 & Hd2)|(k & ? & _)]; [|done].
    rewrite Hc1, dom_union_L in Hd2. apply disjoint_union_r in Hd2 as [Hd21 Hd2h].
    assert (contents h2 (mapat l) = from2 ∪ from1 ∪ contents h (mapat l)) as Hr2.
    { by rewrite Hc2, Hc1, (assoc_L (∪)). }
    destruct F1 as [(-> & Gc1 & _)|(k & -> & Hk1 & Hk2)].
    2: { exfalso. by apply (proj1 (elem_of_disjoint _ _) Hd2h k). }
    destruct F2 as [(-> & Gc2 & _)|(k & -> & Hk1 & Hk2)].
    2: { exfalso. rewrite Gc1, dom_union_L in Hk2.
         apply elem_of_union in Hk2 as [Hk2|Hk2].
         - by apply (proj1 (elem_of_disjoint _ _) Hd21 k).
         - by apply (proj1 (elem_of_disjoint _ _) Hd1 k). }
    split_and!; [done..|].
    intros [|l']; [done|]. destruct (decide (l' = l)) as [->|Hne].
    + rewrite Gc2, Gc1, Hr2, (assoc_L (∪)). f_equal.
      apply map_union_comm. apply map_disjoint_dom. by symmetry.
    + by rewrite (Ff2 l' Hne), (Ff1 l' Hne), (Ef2 l' Hne), (Ef1 l' Hne).
Qed.

(** A merge into an allocated map leaves the contents behind every other
    reference as they were. *)
Lemma mergeRange_other_contents seed (from : gmap string V) l (h : store V) r :
  r ≠ mapat l →
  contents (mergeRange (range seed from) (mapat l) h).1 r = contents h r.
Proof.
  intros Hne. destruct r as [|l']; [done|].
  destruct (mergeRange (range seed from) (mapat l) h) as [h1 r1] eqn:E.
  apply mergeRange_cases in E as [Hf _]. apply Hf. congruence.
Qed.

Lemma mergeRange_twice :
  merge_twice (λ seed (from : gmap string V) to h, mergeRange (range seed from) to h).
Proof.
  split.
  - intros seed1 seed2 seed3 seed4 from1 from2 l h Hn1 Hn2. unfold mergeFrom.
    cbv beta zeta. unfold mergeResult.
    rewrite (mergeRange_other_contents seed1 (contents h from1) l h from2 Hn2).
    rewrite (mergeRange_other_contents seed3 (contents h from2) l h from1 Hn1).
    apply (mergeRange_twice_values seed1 seed2 seed3 seed4
             (contents h from1) (contents h from2) l h).
  - intros seed l h. unfold mergeFrom. cbv beta zeta.
    destruct (range seed (contents h (mapat l))) as [|[k v] rest] eqn:Hr.
    + cbn [mergeRange fst snd]. split; [done|]. split; [|done]. intros _.
      rewrite <-(list_to_map_range seed (contents h (mapat l))). by rewrite Hr.
    + assert (contents h (mapat l) !! k = Some v) as Hk.
      { apply (range_elem seed). rewrite Hr. by left. }
      cbn [mergeRange]. rewrite Hk. cbn [fst snd]. split; [done|]. split; [done|].
      intros Hempty. rewrite Hempty in Hk. done.
Qed.

End MergeMore.

(** X1.  However a call of [mergeSchema] or [mergeResource] ends, no other
    map of the store is touched, no entry of the destination is changed or
    removed, and every entry the destination gains is an entry of the
    source; with an error the returned map is nil and the key named in the
    error is a key of both maps. *)
Theorem merge_never_disturbs `{Runtime} :
  merge_footprint mergeSchema ∧ merge_footprint mergeResource.
Proof. split; apply mergeRange_footprint. Qed.

Lemma merge_never_disturbs_witness :
  nilmap = nilmap ∧
  ∃ k, Errorf_w ErrDuplicateSchemaKey "config_section" = Errorf_w ErrDuplicateSchemaKey k ∧
       k ∈ dom clashingSchema ∧ k ∈ dom (contents baseStore (mapat 1%positive)).
Proof.
  apply (proj2 (proj2 (proj2 (proj1 (merge_never_disturbs (H:=sorted_runtime))
           0 clashingSchema (mapat 1%positive) baseStore)))
           nilmap (Errorf_w ErrDuplicateSchemaKey "config_section")).
  reflexivity.
Defined.

(** X2.  Degenerate inputs of [mergeSchema] and [mergeResource]: an empty
    source changes nothing and returns the destination as it is, also a nil
    one; a nil destination and a non-empty source end in the run-time panic
    of assigning into a nil map, with the store unchanged. *)
Theorem merge_empty_and_nil `{Runtime} :
  merge_degenerate mergeSchema ∧ merge_degenerate mergeResource.
Proof. split; apply mergeRange_degenerate. Qed.

Lemma merge_empty_and_nil_witness :
  mergeSchema (H:=sorted_runtime) 0 clashingSchema nilmap baseStore
    = (baseStore, Panic PanicNilMapAssign).
Proof.
  apply (proj2 (proj1 (merge_empty_and_nil (H:=sorted_runtime))) 0 clashingSchema baseStore).
  intros Heq. apply (f_equal (λ m : gmap string schema.Schema, m !! "gtm_section")) in Heq.
  discriminate Heq.
Defined.

(** X3.  Two merges into the same allocated map, from sources that are
    maps of the store other than the destination, both succeed exactly when
    the two sources and the destination are pairwise disjoint in keys; the
    destination then holds the union of the three, and the order of the two
    calls does not matter for the contents of any map.  A merge whose
    source is the destination itself changes nothing and succeeds only if
    that map is empty. *)
Theorem merge_twice_commutes `{Runtime} :
  merge_twice mergeSchema ∧ merge_twice mergeResource.
Proof. split; apply mergeRange_twice. Qed.

Lemma merge_twice_commutes_witness :
  (let r1 := mergeFrom (mergeSchema (H:=sorted_runtime)) 0
               (mapat 2%positive) (mapat 1%positive) sourcesStore in
   let r2 := mergeFrom (mergeSchema (H:=sorted_runtime)) 1
               (mapat 3%positive) (mapat 1%positive) r1.1 in
   r1.2 = Return (mapat 1%positive, None) ∧ r2.2 = Return (mapat 1%positive, None)) ∧
  (mergeFrom (mergeSchema (H:=sorted_runtime)) 0
     (mapat 1%positive) (mapat 1%positive) sourcesStore).1 = sourcesStore.
Proof.
  split.
  - apply (proj1 (proj1 (proj1 (merge_twice_commutes (H:=sorted_runtime))) 0 1 0 1
             (mapat 2%positive) (mapat 3%positive) 1%positive sourcesStore
             ltac:(discriminate) ltac:(discriminate))).
    split_and!; apply (bool_decide_unpack _); vm_compute; exact I.
  - apply (proj2 (proj1 (merge_twice_commutes (H:=sorted_runtime)))
             0 1%positive sourcesStore).
Defined.

(** ** The bootstrap, in full *)

Section FullLoop.
Context `{Runtime}.
Local Arguments contents : simpl never.

Lemma untouched_refl LS LR LP σ : untouched_outside LS LR LP σ σ.
Proof. by split_and!. Qed.

Lemma untouched_trans LS LR LP σ1 σ2 σ3 :
  untouched_outside LS LR LP σ1 σ2 → untouched_outside LS LR LP σ2 σ3 →
  untouched_outside LS LR LP σ1 σ3.
Proof.
  intros (H1 & H2 & H3) (G1 & G2 & G3). split_and!; intros l Hl.
  - by rewrite G1, H1.
  - by rewrite G2, H2.
  - by rewrite G3, H3.
Qed.

(** The two ways a merge into an allocated map can end, with the store
    outside the destination. *)
Lemma mergeRange_cases_store {V} seed (from : gmap string V) l0 (h h' : store V) r :
  mergeRange (range seed from) (mapat l0) h = (h', r) →
  (∀ l', l' ≠ l0 → h' !! l' = h !! l') ∧
  ((r = Return (mapat l0, None) ∧
    contents h' (mapat l0) = from ∪ contents h (mapat l0) ∧
    dom from ## dom (contents h (mapat l0))) ∨
   (∃ k, r = Return (nilmap, Some (Errorf_w ErrDuplicateSchemaKey k)) ∧
         k ∈ dom from ∧ k ∈ dom (contents h (mapat l0)))).
Proof.
  intros Hrun. split; [|by apply (mergeRange_cases seed from l0 h h' r)].
  destruct (mergeRange_inv _ _ _ _ _ (range_NoDup seed from) Hrun)
    as (pre & post & _ & _ & _ & Hoth & _ & _).
  intros l' Hne. apply Hoth. congruence.
Qed.

Lemma contents_frame {V} (h h' : store V) l :
  h' !! l = h !! l → contents h' (mapat l) = contents h (mapat l).
Proof. unfold contents. by intros ->. Qed.

Lemma not_in_single (a b : loc) : b ∉ ({[a]} : gset loc) → b ≠ a.
Proof. intros Hn ->. apply Hn. by apply elem_of_singleton. Qed.

Lemma not_in_pair (a1 a2 b : loc) : b ∉ ({[a1; a2]} : gset loc) → b ≠ a1 ∧ b ≠ a2.
Proof.
  intros Hn. split; intros ->; apply Hn.
  - apply elem_of_union_l. by apply elem_of_singleton.
  - apply elem_of_union_r. by apply elem_of_singleton.
Qed.

Lemma no_clash_disjoint p q :
  ¬ key_clash p q ↔
  dom (Subprovider.Schema p) ## dom (Subprovider.Schema q) ∧
  dom (Subprovider.Resources p) ## dom (Subprovider.Resources q) ∧
  dom (Subprovider.DataSources p) ## dom (Subprovider.DataSources q).
Proof.
  split.
  - intros Hn. split_and!; apply elem_of_disjoint; intros k H1 H2; apply Hn.
    + left. by exists k.
    + right. left. by exists k.
    + right. right. by exists k.
  - intros (H1 & H2 & H3) [(k & ? & ?)|[(k & ? & ?)|(k & ? & ?)]].
    + by apply (proj1 (elem_of_disjoint _ _) H1 k).
    + by apply (proj1 (elem_of_disjoint _ _) H2 k).
    + by apply (proj1 (elem_of_disjoint _ _) H3 k).
Qed.

Lemma compatible_with_nil KS KR KD : compatible_with KS KR KD [].
Proof.
  split; [by intros p Hin%elem_of_nil|].
  intros i j p q _ Hi. by rewrite lookup_nil in Hi.
Qed.

Lemma compatible_with_cons KS KR KD p rest :
  compatible_with KS KR KD (p :: rest) ↔
  (dom (Subprovider.Schema p) ## KS ∧
   dom (Subprovider.Resources p) ## KR ∧
   dom (Subprovider.DataSources p) ## KD) ∧
  compatible_with (dom (Subprovider.Schema p) ∪ KS)
    (dom (Subprovider.Resources p) ∪ KR)
    (dom (Subprovider.DataSources p) ∪ KD) rest.
Proof.
  split.
  - intros [Hall Hpair]. split; [apply Hall; by left|]. split.
    + intros q Hin. destruct (Hall q) as (H1 & H2 & H3); [by right|].
      apply list_elem_of_lookup in Hin as [j Hj].
      assert (¬ key_clash p q) as (G1 & G2 & G3)%no_clash_disjoint.
      { apply (Hpair 0 (S j)); [lia|done..]. }
      split_and!; apply disjoint_union_r; split; done.
    + intros i j q1 q2 Hlt Hi Hj. apply (Hpair (S i) (S j)); [lia|done..].
  - intros [Hp [Hall Hpair]]. split.
    + intros q [->|Hin]%elem_of_cons; [done|].
      destruct (Hall q Hin) as (H1 & H2 & H3).
      apply disjoint_union_r in H1 as [_ H1].
      apply disjoint_union_r in H2 as [_ H2].
      apply disjoint_union_r in H3 as [_ H3]. done.
    + intros [|i] [|j] q1 q2 Hlt Hi Hj; simpl in *; try lia.
      * injection Hi as <-. apply no_clash_disjoint.
        destruct (Hall q2) as (H1 & H2 & H3); [by eapply list_elem_of_lookup_2|].
        apply disjoint_union_r in H1 as [H1 _].
        apply disjoint_union_r in H2 as [H2 _].
        apply disjoint_union_r in H3 as [H3 _]. done.
      * apply (Hpair i j); [lia|done..].
Qed.

Lemma lookup_union_disjoint {V} (m1 m2 : gmap string V) k v :
  dom m1 ## dom m2 →
  (m1 ∪ m2) !! k = Some v ↔ m2 !! k = Some v ∨ m1 !! k = Some v.
Proof.
  intros Hd%map_disjoint_dom. rewrite (lookup_union_Some _ _ _ _ Hd). tauto.
Qed.

Lemma not_in_pair_inv (a1 a2 b : loc) : b ∈ ({[a1; a2]} : gset loc) → b = a1 ∨ b = a2.
Proof. intros [?%elem_of_singleton|?%elem_of_singleton]%elem_of_union; by eauto. Qed.

Variables l lS lR lD lM : loc.
Hypothesis HRD : lR ≠ lD.

Abbreviation CS σ := (contents (schemas σ) (mapat lS)).
Abbreviation CR σ := (contents (resources σ) (mapat lR)).
Abbreviation CD σ := (contents (resources σ) (mapat lD)).

(** One iteration of the loop, with everything it leaves behind. *)
Lemma mergeSubprovider_full p σ c sb :
  instance_is l lS lR lD lM c None sb σ →
  untouched_outside {[lS]} {[lR; lD]} {[l]} σ (mergeSubprovider p σ).1 ∧
  match (mergeSubprovider p σ).2 with
  | Return _ =>
      instance_is l lS lR lD lM c None (<[Subprovider.Name p := p]> sb)
        (mergeSubprovider p σ).1 ∧
      dom (Subprovider.Schema p) ## dom (CS σ) ∧
      dom (Subprovider.Resources p) ## dom (CR σ) ∧
      dom (Subprovider.DataSources p) ## dom (CD σ) ∧
      CS (mergeSubprovider p σ).1 = Subprovider.Schema p ∪ CS σ ∧
      CR (mergeSubprovider p σ).1 = Subprovider.Resources p ∪ CR σ ∧
      CD (mergeSubprovider p σ).1 = Subprovider.DataSources p ∪ CD σ
  | Panic pv =>
      instance_is l lS lR lD lM c None sb (mergeSubprovider p σ).1 ∧
      ∃ k, pv = PanicErr (Errorf_w ErrDuplicateSchemaKey k) ∧
           ((k ∈ dom (Subprovider.Schema p) ∧ k ∈ dom (CS σ)) ∨
            (k ∈ dom (Subprovider.Resources p) ∧ k ∈ dom (CR σ)) ∨
            (k ∈ dom (Subprovider.DataSources p) ∧ k ∈ dom (CD σ)))
  end.
Proof using HRD.
  intros [Hi Hp]. unfold untouched_outside, instance_is.
  unfold mergeSubprovider.
  erewrite go_bind_Return by (by eapply loadInstance_at). simpl.
  rewrite bind_callMergeSchema. simpl.
  destruct (mergeSchema (seed σ) (Subprovider.Schema p) (mapat lS) (schemas σ))
    as [h1 r1] eqn:E1.
  apply mergeRange_cases_store in E1 as [Hf1 [(-> & Hc1 & Hd1)|(k & -> & Hk1 & Hk2)]].
  2: { simpl. split_and!; try done.
       - intros l' Hl%not_in_single. by apply Hf1.
       - exists k. split; [done|]. by left. }
  simpl.
  erewrite (go_bind_Return (go_ret ())) by reflexivity.
  erewrite go_bind_Return by (by eapply storeInstance_at).
  erewrite go_bind_Return by (eapply loadInstance_at; [exact Hi|apply lookup_insert_eq]).
  simpl.
  rewrite bind_callMergeResource. simpl.
  destruct (mergeResource (S (seed σ)) (Subprovider.Resources p) (mapat lR) (resources σ))
    as [h2 r2] eqn:E2.
  apply mergeRange_cases_store in E2 as [Hf2 [(-> & Hc2 & Hd2)|(k & -> & Hk1 & Hk2)]].
  2: { simpl. split_and!; try done.
       - intros l' Hl%not_in_single. by apply Hf1.
       - intros l' [Hl1 Hl2]%not_in_pair. by apply Hf2.
       - intros l' Hl%not_in_single. by rewrite lookup_insert_ne.
       - apply lookup_insert_eq.
       - exists k. split; [done|]. right. by left. }
  simpl.
  erewrite (go_bind_Return (go_ret ())) by reflexivity.
  erewrite go_bind_Return by (eapply storeInstance_at; [exact Hi|apply lookup_insert_eq]).
  erewrite go_bind_Return by (eapply loadInstance_at; [exact Hi|apply lookup_insert_eq]).
  simpl.
  rewrite bind_callMergeResource. simpl.
  destruct (mergeResource (S (S (seed σ))) (Subprovider.DataSources p) (mapat lD) h2)
    as [h3 r3] eqn:E3.
  assert (contents h2 (mapat lD) = CD σ) as HD2.
  { apply contents_frame, Hf2. congruence. }
  apply mergeRange_cases_store in E3 as [Hf3 [(-> & Hc3 & Hd3)|(k & -> & Hk1 & Hk2)]].
  2: { simpl. split_and!; try done.
       - intros l' Hl%not_in_single. by apply Hf1.
       - intros l' [Hl1 Hl2]%not_in_pair. by rewrite Hf3, Hf2.
       - intros l' Hl%not_in_single. by rewrite !lookup_insert_ne.
       - apply lookup_insert_eq.
       - exists k. split; [done|]. right. right. by rewrite <-HD2. }
  simpl.
  erewrite (go_bind_Return (go_ret ())) by reflexivity.
  erewrite go_bind_Return by (eapply storeInstance_at; [exact Hi|apply lookup_insert_eq]).
  erewrite storeInstance_at by (first [exact Hi|apply lookup_insert_eq]).
  simpl. rewrite HD2 in Hc3, Hd3.
  split_and!; try done.
  - intros l' Hl%not_in_single. by apply Hf1.
  - intros l' [Hl1 Hl2]%not_in_pair. by rewrite Hf3, Hf2.
  - intros l' Hl%not_in_single. by rewrite !lookup_insert_ne.
  - apply lookup_insert_eq.
  - rewrite (contents_frame h2 h3 lR) by (apply Hf3; congruence). done.
Qed.

(** The whole loop. *)
Lemma mergeSubproviders_full provs σ c sb :
  instance_is l lS lR lD lM c None sb σ →
  untouched_outside {[lS]} {[lR; lD]} {[l]} σ (mergeSubproviders provs σ).1 ∧
  match (mergeSubproviders provs σ).2 with
  | Return _ =>
      instance_is l lS lR lD lM c None
        (foldl (λ m p, <[Subprovider.Name p := p]> m) sb provs)
        (mergeSubproviders provs σ).1 ∧
      compatible_with (dom (CS σ)) (dom (CR σ)) (dom (CD σ)) provs ∧
      (∀ k v, CS (mergeSubproviders provs σ).1 !! k = Some v ↔
              CS σ !! k = Some v ∨
              ∃ q, q ∈ provs ∧ Subprovider.Schema q !! k = Some v) ∧
      (∀ k v, CR (mergeSubproviders provs σ).1 !! k = Some v ↔
              CR σ !! k = Some v ∨
              ∃ q, q ∈ provs ∧ Subprovider.Resources q !! k = Some v) ∧
      (∀ k v, CD (mergeSubproviders provs σ).1 !! k = Some v ↔
              CD σ !! k = Some v ∨
              ∃ q, q ∈ provs ∧ Subprovider.DataSources q !! k = Some v)
  | Panic pv =>
      (∃ sb', instance_is l lS lR lD lM c None sb' (mergeSubproviders provs σ).1) ∧
      ¬ compatible_with (dom (CS σ)) (dom (CR σ)) (dom (CD σ)) provs ∧
      ∃ k, pv = PanicErr (Errorf_w ErrDuplicateSchemaKey k)
  end.
Proof using HRD.
  revert σ sb. induction provs as [|p rest IH]; intros σ sb Hat.
  { simpl. split; [apply untouched_refl|]. split_and!; try done.
    - apply compatible_with_nil.
    - intros k v. split; [by left|]. by intros [?|(q & ?%elem_of_nil & _)].
    - intros k v. split; [by left|]. by intros [?|(q & ?%elem_of_nil & _)].
    - intros k v. split; [by left|]. by intros [?|(q & ?%elem_of_nil & _)]. }
  destruct (mergeSubprovider_full p σ c sb Hat) as [Hfr Hstep].
  simpl. unfold go_bind.
  destruct (mergeSubprovider p σ) as [σ1 [[]|pv1]] eqn:E; simpl in Hfr, Hstep.
  - destruct Hstep as (Hat1 & HdS & HdR & HdD & HcS & HcR & HcD).
    destruct (IH σ1 _ Hat1) as [Hfr1 Hrest].
    split; [by eapply untouched_trans|].
    rewrite HcS, HcR, HcD, !dom_union_L in Hrest.
    destruct (mergeSubproviders rest σ1) as [σ2 [[]|pv2]]; simpl in *.
    + destruct Hrest as (Hat2 & Hcomp & HS & HR & HD).
      split_and!.
      * done.
      * by apply compatible_with_cons.
      * intros k v. rewrite HS, (lookup_union_disjoint _ _ _ _ HdS). split.
        -- intros [[?|?]|(q & ? & ?)]; [by left|right..].
           ++ exists p. split; [by left|done].
           ++ exists q. split; [by right|done].
        -- intros [?|(q & [->|?]%elem_of_cons & ?)]; [by left; left|by left; right|].
           right. by exists q.
      * intros k v. rewrite HR, (lookup_union_disjoint _ _ _ _ HdR). split.
        -- intros [[?|?]|(q & ? & ?)]; [by left|right..].
           ++ exists p. split; [by left|done].
           ++ exists q. split; [by right|done].
        -- intros [?|(q & [->|?]%elem_of_cons & ?)]; [by left; left|by left; right|].
           right. by exists q.
      * intros k v. rewrite HD, (lookup_union_disjoint _ _ _ _ HdD). split.
        -- intros [[?|?]|(q & ? & ?)]; [by left|right..].
           ++ exists p. split; [by left|done].
           ++ exists q. split; [by right|done].
        -- intros [?|(q & [->|?]%elem_of_cons & ?)]; [by left; left|by left; right|].
           right. by exists q.
    + destruct Hrest as (Hat2 & Hcomp & Hpv). split_and!; [done| |done].
      intros [_ Hc]%compatible_with_cons. by apply Hcomp.
  - destruct Hstep as (Hat1 & k & -> & Hclash). split; [done|].
    split_and!; [by eauto| |by eauto].
    intros [(H1 & H2 & H3) _]%compatible_with_cons.
    destruct Hclash as [[? ?]|[[? ?]|[? ?]]].
    + by apply (proj1 (elem_of_disjoint _ _) H1 k).
    + by apply (proj1 (elem_of_disjoint _ _) H2 k).
    + by apply (proj1 (elem_of_disjoint _ _) H3 k).
Qed.

(** A panic of the loop names a key that is registered twice. *)
Lemma mergeSubproviders_panic_key provs σ c sb pv :
  instance_is l lS lR lD lM c None sb σ →
  (mergeSubproviders provs σ).2 = Panic pv →
  ∃ k, pv = PanicErr (Errorf_w ErrDuplicateSchemaKey k) ∧
       registered_twice_with (dom (CS σ)) (dom (CR σ)) (dom (CD σ)) k provs.
Proof using HRD.
  revert σ sb. induction provs as [|p rest IH]; intros σ sb Hat; [done|].
  destruct (mergeSubprovider_full p σ c sb Hat) as [_ Hstep].
  simpl. unfold go_bind.
  destruct (mergeSubprovider p σ) as [σ1 [[]|pv1]] eqn:E; simpl in Hstep.
  - destruct Hstep as (Hat1 & _ & _ & _ & HcS & HcR & HcD).
    intros Hpanic. destruct (IH σ1 _ Hat1 Hpanic) as (k & -> & Htwice).
    exists k. split; [done|].
    rewrite HcS, HcR, HcD, !dom_union_L in Htwice.
    destruct Htwice as [(q & Hq & Hk)|(i & j & p1 & p2 & Hlt & Hi & Hj & Hk)].
    + apply list_elem_of_lookup in Hq as Hidx. destruct Hidx as [j Hj].
      destruct Hk as [[Hkq [Hkp|Hk0]%elem_of_union]|
                      [[Hkq [Hkp|Hk0]%elem_of_union]|[Hkq [Hkp|Hk0]%elem_of_union]]].
      * right. exists 0, (S j), p, q. split_and!; [lia|done..|]. by left.
      * left. exists q. split; [by right|]. by left.
      * right. exists 0, (S j), p, q. split_and!; [lia|done..|]. right. by left.
      * left. exists q. split; [by right|]. right. by left.
      * right. exists 0, (S j), p, q. split_and!; [lia|done..|]. right. by right.
      * left. exists q. split; [by right|]. right. by right.
    + right. exists (S i), (S j), p1, p2. split_and!; [lia|done..].
  - simpl. intros [= <-]. destruct Hstep as (_ & k & -> & Hclash).
    exists k. split; [done|]. left. exists p. split; [by left|done].
Qed.

End FullLoop.

Section FullInit.
Context `{Runtime}.
Local Arguments contents : simpl never.

Lemma compatible_base provs :
  compatible provs ↔ compatible_with (dom baseSchema) ∅ ∅ provs.
Proof.
  unfold compatible, compatible_with. split.
  - intros [Hb Hp]. split; [|done]. intros p Hin. split_and!; [by apply Hb|..];
      apply disjoint_empty_r.
  - intros [Hb Hp]. split; [|done]. intros p Hin. by destruct (Hb p Hin).
Qed.

Lemma fresh_insert_ne {V} (h : store V) (m : gmap string V) :
  fresh (dom (<[fresh (dom h) := m]> h)) ≠ fresh (dom h).
Proof.
  intros Heq. apply (is_fresh (dom (<[fresh (dom h) := m]> h))).
  rewrite Heq at 1. rewrite dom_insert_L. apply elem_of_union_l. by apply elem_of_singleton.
Qed.

Lemma fresh_insert_notin {V} (h : store V) (m : gmap string V) :
  fresh (dom (<[fresh (dom h) := m]> h)) ∉ dom h.
Proof.
  intros Hin. apply (is_fresh (dom (<[fresh (dom h) := m]> h))).
  set (x := fresh (dom (<[fresh (dom h) := m]> h))) in *.
  apply elem_of_dom. rewrite lookup_insert_ne.
  - by apply elem_of_dom.
  - intros Heq. apply (is_fresh (dom h)). by rewrite Heq.
Qed.

(** The state [newInstance] builds. *)
Lemma newInstance_full σ :
  let l := fresh (dom (providers σ)) in
  let lS := fresh (dom (schemas σ)) in
  let lM := fresh (dom (<[lS := baseSchema]> (schemas σ))) in
  let lR := fresh (dom (resources σ)) in
  let lD := fresh (dom (<[lR := ∅]> (resources σ))) in
  newInstance σ = ((newInstance σ).1, Return tt) ∧
  instance_is l lS lR lD lM None None ∅ (newInstance σ).1 ∧
  untouched_outside {[lS; lM]} {[lR; lD]} {[l]} σ (newInstance σ).1 ∧
  contents (schemas (newInstance σ).1) (mapat lS) = baseSchema ∧
  contents (schemas (newInstance σ).1) (mapat lM) = ∅ ∧
  contents (resources (newInstance σ).1) (mapat lR) = ∅ ∧
  contents (resources (newInstance σ).1) (mapat lD) = ∅.
Proof.
  intros l lS lM lR lD. unfold newInstance, alloc. simpl.
  fold lS lR. fold lM lD. fold l.
  assert (lM ≠ lS) as HMS by apply fresh_insert_ne.
  assert (lD ≠ lR) as HDR by apply fresh_insert_ne.
  split_and!.
  - done.
  - unfold instance_is. simpl. split; [reflexivity|]. apply lookup_insert_eq.
  - unfold untouched_outside. split_and!; simpl.
    + intros l' [? ?]%not_in_pair. by rewrite !lookup_insert_ne.
    + intros l' [? ?]%not_in_pair. by rewrite !lookup_insert_ne.
    + intros l' ?%not_in_single. by rewrite lookup_insert_ne.
  - unfold contents. by rewrite lookup_insert_ne, lookup_insert_eq.
  - unfold contents. by rewrite lookup_insert_eq.
  - unfold contents. by rewrite lookup_insert_ne, lookup_insert_eq.
  - unfold contents. by rewrite lookup_insert_eq.
Qed.

Lemma untouched_mono LS LR LP LS' LR' LP' σ σ' :
  LS ⊆ LS' → LR ⊆ LR' → LP ⊆ LP' →
  untouched_outside LS LR LP σ σ' → untouched_outside LS' LR' LP' σ σ'.
Proof.
  intros HS HR HP (H1 & H2 & H3). split_and!; intros l Hl.
  - apply H1. intros Hin. by apply Hl, HS.
  - apply H2. intros Hin. by apply Hl, HR.
  - apply H3. intros Hin. by apply Hl, HP.
Qed.

(** The initialisation body, with the state it leaves in either case. *)
Lemma initialize_full provs σ :
  let l := fresh (dom (providers σ)) in
  let lS := fresh (dom (schemas σ)) in
  let lM := fresh (dom (<[lS := baseSchema]> (schemas σ))) in
  let lR := fresh (dom (resources σ)) in
  let lD := fresh (dom (<[lR := ∅]> (resources σ))) in
  untouched_outside {[lS; lM]} {[lR; lD]} {[l]} σ (initialize provs σ).1 ∧
  contents (schemas (initialize provs σ).1) (mapat lM) = ∅ ∧
  match (initialize provs σ).2 with
  | Return _ =>
      ∃ c, NewBigCache tenMinutes = inl c ∧
           compatible provs ∧
           instance_is l lS lR lD lM (Some c) (Some schema.configureSubproviders)
             (foldl (λ m p, <[Subprovider.Name p := p]> m) ∅ provs)
             (initialize provs σ).1 ∧
           (∀ k v, contents (schemas (initialize provs σ).1) (mapat lS) !! k = Some v ↔
                   baseSchema !! k = Some v ∨
                   ∃ q, q ∈ provs ∧ Subprovider.Schema q !! k = Some v) ∧
           (∀ k v, contents (resources (initialize provs σ).1) (mapat lR) !! k = Some v ↔
                   ∃ q, q ∈ provs ∧ Subprovider.Resources q !! k = Some v) ∧
           (∀ k v, contents (resources (initialize provs σ).1) (mapat lD) !! k = Some v ↔
                   ∃ q, q ∈ provs ∧ Subprovider.DataSources q !! k = Some v)
  | Panic pv =>
      (∃ c sb, instance_is l lS lR lD lM c None sb (initialize provs σ).1) ∧
      ((∃ e, NewBigCache tenMinutes = inr e ∧ pv = PanicErr e) ∨
       ((∃ c, NewBigCache tenMinutes = inl c) ∧ ¬ compatible provs ∧
        ∃ k, pv = PanicErr (Errorf_w ErrDuplicateSchemaKey k)))
  end.
Proof.
  intros l lS lM lR lD.
  pose proof (newInstance_full (count_init σ)) as Hn. cbv zeta in Hn.
  change (providers (count_init σ)) with (providers σ) in Hn.
  change (schemas (count_init σ)) with (schemas σ) in Hn.
  change (resources (count_init σ)) with (resources σ) in Hn.
  fold l lS lR in Hn. fold lM lD in Hn.
  destruct Hn as (Hnew & Hat0 & Hfr0 & HcS & HcM & HcR & HcD).
  assert (lD ≠ lR) as HDR by apply fresh_insert_ne.
  assert (lM ≠ lS) as HMS by apply fresh_insert_ne.
  unfold initialize.
  erewrite go_bind_Return by reflexivity.
  erewrite go_bind_Return by exact Hnew.
  set (s0 := (newInstance (count_init σ)).1) in *.
  assert (untouched_outside {[lS; lM]} {[lR; lD]} {[l]} σ s0) as Hfr by exact Hfr0.
  unfold newCache. destruct (NewBigCache tenMinutes) as [c|e] eqn:Hcache.
  2: { erewrite go_bind_Panic by reflexivity. simpl.
       split_and!; [done..|by eauto|by eauto]. }
  destruct Hat0 as [Hi0 Hp0].
  erewrite go_bind_Return by (by eapply storeInstance_at).
  set (s1 := with_providers _ s0).
  assert (instance_is l lS lR lD lM (Some c) None ∅ s1) as Hat1.
  { split; [done|]. simpl. apply lookup_insert_eq. }
  assert (untouched_outside {[lS; lM]} {[lR; lD]} {[l]} s0 s1) as Hfr01.
  { split_and!; [done..|]. intros l' ?%not_in_single. simpl. by rewrite lookup_insert_ne. }
  destruct (mergeSubproviders_full l lS lR lD lM (not_eq_sym HDR) provs s1 (Some c) ∅ Hat1)
    as [Hfr1 Hloop].
  apply (untouched_mono _ _ _ {[lS; lM]} {[lR; lD]} {[l]}) in Hfr1;
    [|set_solver..].
  change (contents (schemas s1) (mapat lS)) with (contents (schemas s0) (mapat lS)) in Hloop.
  change (contents (resources s1) (mapat lR)) with (contents (resources s0) (mapat lR)) in Hloop.
  change (contents (resources s1) (mapat lD)) with (contents (resources s0) (mapat lD)) in Hloop.
  rewrite HcS, HcR, HcD in Hloop.
  assert (contents (schemas (mergeSubproviders provs s1).1) (mapat lM) = ∅) as HM2.
  { rewrite <-HcM. apply contents_frame.
    destruct (mergeSubproviders_full l lS lR lD lM (not_eq_sym HDR) provs s1 (Some c) ∅ Hat1)
      as [(HfS & _ & _) _].
    rewrite HfS; [done|]. intros ?%elem_of_singleton. done. }
  rewrite !dom_empty_L in Hloop.
  destruct (mergeSubproviders provs s1) as [s2 [[]|pv]] eqn:Eloop; simpl in Hloop, Hfr1, HM2.
  - destruct Hloop as ([Hi2 Hp2] & Hcomp & HS & HR & HD).
    erewrite go_bind_Return by exact Eloop.
    erewrite storeInstance_at by done. simpl.
    split_and!.
    + eapply untouched_trans; [exact Hfr|]. eapply untouched_trans; [exact Hfr01|].
      eapply untouched_trans; [exact Hfr1|].
      split_and!; [done..|]. intros l' ?%not_in_single. simpl. by rewrite lookup_insert_ne.
    + exact HM2.
    + exists c. split_and!; [done| | | | |].
      * by apply compatible_base.
      * split; [done|]. simpl. apply lookup_insert_eq.
      * done.
      * intros k v. rewrite HR, lookup_empty. split; [by intros [?|?]|by right].
      * intros k v. rewrite HD, lookup_empty. split; [by intros [?|?]|by right].
  - destruct Hloop as ((sb' & Hat2) & Hcomp & Hpv).
    erewrite go_bind_Panic by exact Eloop. simpl.
    split_and!.
    + eapply untouched_trans; [exact Hfr|]. eapply untouched_trans; [exact Hfr01|done].
    + exact HM2.
    + by eauto.
    + right. split_and!; [by eauto| |done]. by rewrite compatible_base.
Qed.

(** With a working cache constructor, a panic of the initialisation
    body names a key that is registered twice. *)
Lemma initialize_panic_key provs σ c pv :
  NewBigCache tenMinutes = inl c →
  (initialize provs σ).2 = Panic pv →
  ∃ k, pv = PanicErr (Errorf_w ErrDuplicateSchemaKey k) ∧ registered_twice k provs.
Proof.
  intros Hcache.
  set (l := fresh (dom (providers σ))).
  set (lS := fresh (dom (schemas σ))).
  set (lM := fresh (dom (<[lS := baseSchema]> (schemas σ)))).
  set (lR := fresh (dom (resources σ))).
  set (lD := fresh (dom (<[lR := ∅]> (resources σ)))).
  pose proof (newInstance_full (count_init σ)) as Hn. cbv zeta in Hn.
  change (providers (count_init σ)) with (providers σ) in Hn.
  change (schemas (count_init σ)) with (schemas σ) in Hn.
  change (resources (count_init σ)) with (resources σ) in Hn.
  fold l lS lR in Hn. fold lM lD in Hn.
  destruct Hn as (Hnew & Hat0 & _ & HcS & _ & HcR & HcD).
  assert (lR ≠ lD) as HRD by apply not_eq_sym, fresh_insert_ne.
  unfold initialize.
  erewrite go_bind_Return by reflexivity.
  erewrite go_bind_Return by exact Hnew.
  set (s0 := (newInstance (count_init σ)).1) in *.
  unfold newCache. rewrite Hcache.
  destruct Hat0 as [Hi0 Hp0].
  erewrite go_bind_Return by (by eapply storeInstance_at).
  set (s1 := with_providers _ s0).
  assert (instance_is l lS lR lD lM (Some c) None ∅ s1) as Hat1.
  { split; [done|]. simpl. apply lookup_insert_eq. }
  pose proof (λ pv, mergeSubproviders_panic_key l lS lR lD lM HRD provs s1 (Some c) ∅ pv Hat1)
    as Hkey.
  change (contents (schemas s1)) with (contents (schemas s0)) in Hkey.
  change (contents (resources s1)) with (contents (resources s0)) in Hkey.
  rewrite HcS, HcR, HcD, !dom_empty_L in Hkey.
  destruct (mergeSubproviders_full l lS lR lD lM HRD provs s1 (Some c) ∅ Hat1) as [_ Hfull].
  destruct (mergeSubproviders provs s1) as [s2 [[]|pv2]] eqn:Eloop; simpl in Hfull.
  - erewrite go_bind_Return by exact Eloop.
    destruct Hfull as ([Hi2 Hp2] & _).
    erewrite storeInstance_at by done. done.
  - erewrite go_bind_Panic by exact Eloop. simpl. intros [= <-].
    by apply Hkey.
Qed.

End FullInit.

Section ProviderMore.
Context `{Runtime}.

Lemma Provider_unfold provs σ :
  once σ = false →
  Provider provs σ =
    (with_once true (initialize provs σ).1,
     match (initialize provs σ).2 with
     | Return _ => Return providerFunc
     | Panic pv => Panic pv
     end).
Proof.
  intros Hd. unfold Provider, go_bind, onceDo. rewrite Hd.
  by destruct (initialize provs σ) as [σ' [[]|pv]].
Qed.

(** The map the loop builds in [subs]: for every name, the last
    sub-provider of the list that goes by it. *)
Lemma foldl_lastNamed provs (sb : gmap string Subprovider.t) n :
  foldl (λ m p, <[Subprovider.Name p := p]> m) sb provs !! n =
    match lastNamed n provs with
    | Some q => Some q
    | None => sb !! n
    end.
Proof.
  unfold lastNamed. induction provs as [|p provs IH] using rev_ind; [done|].
  rewrite foldl_app, filter_app. simpl.
  destruct (decide (Subprovider.Name p = n)) as [Hn|Hn].
  - rewrite filter_cons_True by done. rewrite filter_nil, last_snoc.
    rewrite <-Hn. apply lookup_insert_eq.
  - rewrite filter_cons_False by done. rewrite filter_nil, app_nil_r.
    by rewrite lookup_insert_ne.
Qed.

Lemma Provider_Return_subs provs σ f :
  once σ = false →
  (Provider provs σ).2 = Return f →
  ∃ l p, instance (Provider provs σ).1 = Some l ∧
         providers (Provider provs σ).1 !! l = Some p ∧
         ∀ n, provider.subs p !! n = lastNamed n provs.
Proof.
  intros Hd. rewrite (Provider_unfold provs σ Hd). simpl.
  destruct (initialize_full provs σ) as (_ & _ & Hr).
  destruct (initialize provs σ) as [σ1 [[]|pv]]; simpl in *; [|done].
  intros _. destruct Hr as (c & _ & _ & [Hi Hp] & _).
  eexists _, _. split_and!; [done..|].
  intros n. simpl. rewrite foldl_lastNamed. by destruct (lastNamed n provs).
Qed.

Lemma lastNamed_Some n provs p :
  lastNamed n provs = Some p → p ∈ provs ∧ Subprovider.Name p = n.
Proof.
  unfold lastNamed. intros Hin%last_Some_elem_of.
  by apply list_elem_of_filter in Hin as [? ?].
Qed.

End ProviderMore.

(** X4.  The first call of [Provider] returns (instead of panicking)
    exactly when the cache constructor succeeds and the sub-providers are
    compatible: none registers a schema key of the provider's base schema,
    and no two register a common schema, resource or data-source key. *)
Theorem Provider_returns_iff_compatible `{Runtime}
    (provs : list Subprovider.t) (σ : process) :
  once σ = false →
  (∃ f, (Provider provs σ).2 = Return f) ↔
  (∃ c, NewBigCache tenMinutes = inl c) ∧ compatible provs.
Proof.
  intros Hd. rewrite (Provider_unfold provs σ Hd). simpl.
  destruct (initialize_full provs σ) as (_ & _ & Hr).
  destruct (initialize provs σ).2 as [[]|pv].
  - destruct Hr as (c & Hc & Hcomp & _). split; [by eauto|by eauto].
  - split; [by intros [f ?]|]. intros [[c Hc] Hcomp].
    destruct Hr as [_ [(e & He & _)|(_ & Hn & _)]]; [congruence|done].
Qed.

Lemma Provider_returns_iff_compatible_witness :
  (∃ f, (Provider (H:=sorted_runtime) [dnsProvider; gtmProvider] start).2 = Return f) ↔
  (∃ c, NewBigCache (Runtime:=sorted_runtime) tenMinutes = inl c) ∧
  compatible [dnsProvider; gtmProvider].
Proof.
  apply (Provider_returns_iff_compatible (H:=sorted_runtime) [dnsProvider; gtmProvider] start).
  reflexivity.
Defined.

(** X5.  When the first call of [Provider] returns, [instance] points to a
    newly allocated provider whose four maps are four new, distinct
    allocations.  Its schema map holds the base schema and every
    sub-provider's schema entries and nothing else; its resource and
    data-source maps hold exactly the sub-providers' resources and data
    sources; the provider-meta schema is empty; the cache and the
    configure function are set. *)
Theorem Provider_builds_instance `{Runtime}
    (provs : list Subprovider.t) (σ : process) (f : ProviderFunc) :
  once σ = false →
  (Provider provs σ).2 = Return f →
  let σ' := (Provider provs σ).1 in
  ∃ l p lS lR lD lM c,
    instance σ' = Some l ∧ f σ' = Return (addrProvider l) ∧
    providers σ' !! l = Some p ∧ (l ∉ dom (providers σ)) ∧
    schema.Provider.Schema (provider.Provider p) = mapat lS ∧
    schema.Provider.ResourcesMap (provider.Provider p) = mapat lR ∧
    schema.Provider.DataSourcesMap (provider.Provider p) = mapat lD ∧
    schema.Provider.ProviderMetaSchema (provider.Provider p) = mapat lM ∧
    schema.Provider.ConfigureContextFunc (provider.Provider p)
      = Some schema.configureSubproviders ∧
    provider.cache p = Some c ∧ NewBigCache tenMinutes = inl c ∧
    (lS ∉ dom (schemas σ)) ∧ (lM ∉ dom (schemas σ)) ∧ (lS ≠ lM) ∧
    (lR ∉ dom (resources σ)) ∧ (lD ∉ dom (resources σ)) ∧ (lR ≠ lD) ∧
    (∀ k v, contents (schemas σ') (mapat lS) !! k = Some v ↔
            baseSchema !! k = Some v ∨
            ∃ q, q ∈ provs ∧ Subprovider.Schema q !! k = Some v) ∧
    (∀ k v, contents (resources σ') (mapat lR) !! k = Some v ↔
            ∃ q, q ∈ provs ∧ Subprovider.Resources q !! k = Some v) ∧
    (∀ k v, contents (resources σ') (mapat lD) !! k = Some v ↔
            ∃ q, q ∈ provs ∧ Subprovider.DataSources q !! k = Some v) ∧
    contents (schemas σ') (mapat lM) = ∅.
Proof.
  intros Hd. rewrite (Provider_unfold provs σ Hd). simpl.
  destruct (initialize_full provs σ) as (_ & HM & Hr).
  destruct (initialize provs σ) as [σ1 [[]|pv]]; simpl in *; [|done].
  intros [= <-].
  destruct Hr as (c & Hc & _ & [Hi Hp] & HS & HR & HD).
  eexists _, _, _, _, _, _, c. split_and!; try done.
  - unfold providerFunc. simpl. by rewrite Hi.
  - apply is_fresh.
  - apply is_fresh.
  - apply fresh_insert_notin.
  - apply not_eq_sym, fresh_insert_ne.
  - apply is_fresh.
  - apply fresh_insert_notin.
  - apply not_eq_sym, fresh_insert_ne.
Qed.

Lemma Provider_builds_instance_witness :
  let σ' := (Provider (H:=sorted_runtime) [dnsProvider; gtmProvider] start).1 in
  ∃ l p lS lR lD lM c,
    instance σ' = Some l ∧ providerFunc σ' = Return (addrProvider l) ∧
    providers σ' !! l = Some p ∧ (l ∉ dom (providers start)) ∧
    schema.Provider.Schema (provider.Provider p) = mapat lS ∧
    schema.Provider.ResourcesMap (provider.Provider p) = mapat lR ∧
    schema.Provider.DataSourcesMap (provider.Provider p) = mapat lD ∧
    schema.Provider.ProviderMetaSchema (provider.Provider p) = mapat lM ∧
    schema.Provider.ConfigureContextFunc (provider.Provider p)
      = Some schema.configureSubproviders ∧
    provider.cache p = Some c ∧
    NewBigCache (Runtime:=sorted_runtime) tenMinutes = inl c ∧
    (lS ∉ dom (schemas start)) ∧ (lM ∉ dom (schemas start)) ∧ (lS ≠ lM) ∧
    (lR ∉ dom (resources start)) ∧ (lD ∉ dom (resources start)) ∧ (lR ≠ lD) ∧
    (∀ k v, contents (schemas σ') (mapat lS) !! k = Some v ↔
            baseSchema !! k = Some v ∨
            ∃ q, q ∈ [dnsProvider; gtmProvider] ∧ Subprovider.Schema q !! k = Some v) ∧
    (∀ k v, contents (resources σ') (mapat lR) !! k = Some v ↔
            ∃ q, q ∈ [dnsProvider; gtmProvider] ∧ Subprovider.Resources q !! k = Some v) ∧
    (∀ k v, contents (resources σ') (mapat lD) !! k = Some v ↔
            ∃ q, q ∈ [dnsProvider; gtmProvider] ∧ Subprovider.DataSources q !! k = Some v) ∧
    contents (schemas σ') (mapat lM) = ∅.
Proof.
  apply (Provider_builds_instance (H:=sorted_runtime) [dnsProvider; gtmProvider] start
           providerFunc).
  - reflexivity.
  - reflexivity.
Defined.

(** X6.  The keys "edgerc" and "config_section" belong to the provider
    itself: if any sub-provider's schema registers one of them, the first
    call of [Provider] panics. *)
Theorem Provider_reserved_schema_keys `{Runtime}
    (provs : list Subprovider.t) (σ : process) (p : Subprovider.t) (k : string) :
  once σ = false →
  p ∈ provs →
  k = "edgerc" ∨ k = "config_section" →
  k ∈ dom (Subprovider.Schema p) →
  ∃ pv, (Provider provs σ).2 = Panic pv.
Proof.
  intros Hd Hin Hk Hkp. rewrite (Provider_unfold provs σ Hd). simpl.
  destruct (initialize_full provs σ) as (_ & _ & Hr).
  destruct (initialize provs σ).2 as [[]|pv]; [exfalso|by eauto].
  destruct Hr as (c & _ & [Hbase _] & _).
  apply (proj1 (elem_of_disjoint _ _) (Hbase p Hin) k Hkp).
  apply elem_of_dom. unfold baseSchema.
  destruct Hk as [-> | ->]; eexists; reflexivity.
Qed.

Lemma Provider_reserved_schema_keys_witness :
  ∃ pv, (Provider (H:=sorted_runtime) [dnsProvider; edgercProvider] start).2 = Panic pv.
Proof.
  apply (Provider_reserved_schema_keys (H:=sorted_runtime)
           [dnsProvider; edgercProvider] start edgercProvider "edgerc").
  - reflexivity.
  - apply elem_of_cons. right. apply elem_of_cons. by left.
  - by left.
  - apply elem_of_dom. eexists. reflexivity.
Defined.

(** X7.  When the first call of [Provider] returns, the provider's [subs]
    map holds, for every name, the last sub-provider of the argument list
    that goes by that name: of two sub-providers with one name only the
    later is registered there (while the keys of both are merged). *)
Theorem Provider_registers_last_named `{Runtime}
    (provs : list Subprovider.t) (σ : process) (f : ProviderFunc) :
  once σ = false →
  (Provider provs σ).2 = Return f →
  ∃ l p, instance (Provider provs σ).1 = Some l ∧
         providers (Provider provs σ).1 !! l = Some p ∧
         ∀ n, provider.subs p !! n = lastNamed n provs.
Proof. apply Provider_Return_subs. Qed.

Lemma Provider_registers_last_named_witness :
  ∃ l p, instance (Provider (H:=sorted_runtime) [dnsProvider; dnsTwin] start).1 = Some l ∧
         providers (Provider (H:=sorted_runtime) [dnsProvider; dnsTwin] start).1 !! l
           = Some p ∧
         ∀ n, provider.subs p !! n = lastNamed n [dnsProvider; dnsTwin].
Proof.
  apply (Provider_registers_last_named (H:=sorted_runtime) [dnsProvider; dnsTwin] start
           providerFunc).
  - reflexivity.
  - reflexivity.
Defined.

(** X8.  When the first call of [Provider] panics, it has already assigned
    [instance]: the provider it points to has no configure function, and
    since the [once] flag is set every later call returns a function that
    yields this unfinished provider, whatever sub-providers it is given. *)
Theorem Provider_panic_leaves_unfinished `{Runtime}
    (provs : list Subprovider.t) (σ : process) (pv : panic_value) :
  once σ = false →
  (Provider provs σ).2 = Panic pv →
  let σ' := (Provider provs σ).1 in
  ∃ l p, instance σ' = Some l ∧ providers σ' !! l = Some p ∧
         schema.Provider.ConfigureContextFunc (provider.Provider p) = None ∧
         ∀ provs', Provider provs' σ' = (σ', Return providerFunc) ∧
                   providerFunc σ' = Return (addrProvider l).
Proof.
  intros Hd Hpanic. simpl.
  pose proof (Provider_sets_once provs σ) as Hd'.
  rewrite (Provider_unfold provs σ Hd) in *. simpl in *.
  destruct (initialize_full provs σ) as (_ & _ & Hr).
  destruct (initialize provs σ) as [σ1 [[]|pv1]]; simpl in *; [done|].
  destruct Hr as [(c & sb & Hi & Hp) _].
  eexists _, _. split_and!; [done..|].
  intros provs'. split; [by apply Provider_done|].
  unfold providerFunc. simpl. by rewrite Hi.
Qed.

Lemma Provider_panic_leaves_unfinished_witness :
  let σ' := (Provider (H:=sorted_runtime) [dnsProvider; rivalProvider] start).1 in
  ∃ l p, instance σ' = Some l ∧ providers σ' !! l = Some p ∧
         schema.Provider.ConfigureContextFunc (provider.Provider p) = None ∧
         ∀ provs', Provider (H:=sorted_runtime) provs' σ' = (σ', Return providerFunc) ∧
                   providerFunc σ' = Return (addrProvider l).
Proof.
  apply (Provider_panic_leaves_unfinished (H:=sorted_runtime) [dnsProvider; rivalProvider]
           start (PanicErr (Errorf_w ErrDuplicateSchemaKey "akamai_authorities_set"))).
  - reflexivity.
  - reflexivity.
Defined.

(** X9.  A call of [Provider] never changes what was on the heap before
    it: every schema map, resource map and provider struct that existed
    is still there, with the same contents, whether the call initialises,
    panics, or finds [once] already fired. *)
Theorem Provider_leaves_heap_alone `{Runtime}
    (provs : list Subprovider.t) (σ : process) :
  (∀ l m, schemas σ !! l = Some m → schemas (Provider provs σ).1 !! l = Some m) ∧
  (∀ l m, resources σ !! l = Some m → resources (Provider provs σ).1 !! l = Some m) ∧
  (∀ l p, providers σ !! l = Some p → providers (Provider provs σ).1 !! l = Some p).
Proof.
  destruct (once σ) eqn:Hd.
  { by rewrite (Provider_done provs σ Hd). }
  rewrite (Provider_unfold provs σ Hd). simpl.
  destruct (initialize_full provs σ) as ((HS & HR & HP) & _ & _).
  split_and!.
  - intros l m Hl. rewrite HS; [done|]. intros [-> | ->]%not_in_pair_inv.
    + apply (is_fresh (dom (schemas σ))). apply elem_of_dom. by eauto.
    + apply (fresh_insert_notin (schemas σ) baseSchema). apply elem_of_dom. by eauto.
  - intros l m Hl. rewrite HR; [done|]. intros [-> | ->]%not_in_pair_inv.
    + apply (is_fresh (dom (resources σ))). apply elem_of_dom. by eauto.
    + apply (fresh_insert_notin (resources σ) ∅). apply elem_of_dom. by eauto.
  - intros l p Hl. rewrite HP; [done|]. intros ->%elem_of_singleton.
    apply (is_fresh (dom (providers σ))). apply elem_of_dom. by eauto.
Qed.

Lemma Provider_leaves_heap_alone_witness :
  schemas (Provider (H:=sorted_runtime) [dnsProvider; gtmProvider] loadedProcess).1
    !! 1%positive = Some baseSchema.
Proof.
  apply (proj1 (Provider_leaves_heap_alone (H:=sorted_runtime)
                  [dnsProvider; gtmProvider] loadedProcess)).
  reflexivity.
Defined.

(** ** Configuration *)

Section ConfigureFacts.
Context `{Runtime} `{Host}.

(** The loop of lines 144-148 over a visit sequence: it runs to the end
    exactly when every [Configure] returns nil, and otherwise stops at the
    first one that does not. *)
Lemma configureRange_inv (it : list (string * Subprovider.t)) lg d :
  match (configureRange it lg d).2 with
  | None =>
      (configureRange it lg d).1 = it.*2 ∧
      ∀ p, p ∈ it.*2 → Configure p lg d = None
  | Some ds =>
      ∃ pre p post,
        it.*2 = pre ++ p :: post ∧
        (configureRange it lg d).1 = pre ++ [p] ∧
        Configure p lg d = Some ds ∧
        ∀ q, q ∈ pre → Configure q lg d = None
  end.
Proof.
  induction it as [|[n p] rest IH].
  { simpl. split; [done|]. by intros p Hin%elem_of_nil. }
  rewrite fmap_cons. cbn [configureRange snd].
  destruct (Configure p lg d) as [ds|] eqn:Hp; cbn [fst snd].
  { exists [], p, rest.*2. split_and!; [done..|]. by intros q Hin%elem_of_nil. }
  destruct (configureRange rest lg d) as [called [ds|]]; cbn [fst snd] in *.
  - destruct IH as (pre & q & post & Hsplit & -> & Hq & Hpre).
    exists (p :: pre), q, post. rewrite Hsplit. split_and!; [done..|].
    intros q' [->|Hin]%elem_of_cons; [done|by apply Hpre].
  - destruct IH as [-> Hall]. split; [done|].
    intros q [->|Hin]%elem_of_cons; [done|by apply Hall].
Qed.

Lemma range_values seed (m : gmap string Subprovider.t) p :
  p ∈ (range seed m).*2 ↔ ∃ n, m !! n = Some p.
Proof.
  rewrite list_elem_of_fmap. split.
  - intros ([n q] & -> & Hin). exists n. by apply (range_elem seed).
  - intros [n Hn]. exists (n, p). split; [done|]. by apply (range_elem seed).
Qed.

(** The closure on a state whose [instance] is in place and whose random
    draw succeeds. *)
Lemma configureContext_unfold ctx d s l inst opid :
  instance (proc s) = Some l →
  providers (proc s) !! l = Some inst →
  NewRandom (entropy s) = inl opid →
  let lg := hclog.With (hclog.FromContext ctx) ["OperationID"; opid] in
  let cr := configureRange (range (seed (proc s)) (provider.subs inst))
              (log.LogFromHCLog lg) d in
  configureContext ctx d s =
    match cr.2 with
    | Some ds =>
        ({| proc := next_seed (proc s); entropy := S (entropy s);
            terraformVersion := terraformVersion s;
            clientUserAgent := clientUserAgent s;
            configured := configured s ++ cr.1 |},
         Return (anyNil, Some ds))
    | None =>
        ({| proc := next_seed (proc s); entropy := S (entropy s);
            terraformVersion := terraformVersion s;
            clientUserAgent := UserAgent ProviderName (terraformVersion s);
            configured := configured s ++ cr.1 |},
         Return (anyMeta {| meta.operationID := opid; meta.log := lg |}, None))
    end.
Proof.
  intros Hi Hp Hr. simpl. unfold configureContext.
  rewrite Hr, (loadInstance_at _ _ _ Hi Hp).
  by destruct (configureRange _ _ d) as [called [ds|]].
Qed.

End ConfigureFacts.

(** X10.  With [instance] in place and a successful random draw, the
    configure function returns the meta object (and no diagnostics)
    exactly when the [Configure] of every registered sub-provider returns
    nil.  It has then called each registered sub-provider's [Configure]
    exactly once, all with the logger that carries the drawn operation id,
    and has assigned [client.UserAgent]. *)
Theorem configure_succeeds_iff_all_nil `{Runtime} `{Host}
    (ctx : hclog.Context) (d : ResourceData) (s : host)
    (l : loc) (inst : provider.t) (opid : string) :
  instance (proc s) = Some l →
  providers (proc s) !! l = Some inst →
  NewRandom (entropy s) = inl opid →
  let lg := hclog.With (hclog.FromContext ctx) ["OperationID"; opid] in
  let m := {| meta.operationID := opid; meta.log := lg |} in
  let res := configureContext ctx d s in
  (res.2 = Return (anyMeta m, None) ↔
   ∀ n p, provider.subs inst !! n = Some p →
          Configure p (log.LogFromHCLog lg) d = None) ∧
  (res.2 = Return (anyMeta m, None) →
   clientUserAgent res.1 = UserAgent ProviderName (terraformVersion s) ∧
   ∃ called, configured res.1 = configured s ++ called ∧
             called ≡ₚ (map_to_list (provider.subs inst)).*2).
Proof.
  intros Hi Hp Hr. simpl.
  rewrite (configureContext_unfold ctx d s l inst opid Hi Hp Hr). simpl.
  pose proof (configureRange_inv (range (seed (proc s)) (provider.subs inst))
                (log.LogFromHCLog (hclog.With (hclog.FromContext ctx) ["OperationID"; opid]))
                d) as Hinv.
  destruct (configureRange _ _ d) as [called [ds|]]; simpl in *.
  - destruct Hinv as (pre & p & post & Hsplit & -> & Hcp & _).
    split; [split; [done|]|done]. intros Hall. exfalso.
    assert (p ∈ (range (seed (proc s)) (provider.subs inst)).*2) as [n Hn]%range_values.
    { rewrite Hsplit. apply elem_of_app. right. by left. }
    rewrite (Hall n p Hn) in Hcp. done.
  - destruct Hinv as [-> Hall]. split; [split; [|done]|].
    + intros _ n p Hn. apply Hall. apply range_values. by eauto.
    + intros _. split; [done|]. eexists. split; [done|].
      by rewrite (range_perm _ (seed (proc s)) (provider.subs inst)).
Qed.

Lemma configure_succeeds_iff_all_nil_witness :
  let lg := hclog.With (hclog.FromContext sampleContext) ["OperationID"; sampleOpid] in
  let m := {| meta.operationID := sampleOpid; meta.log := lg |} in
  let res := configureContext (H:=sorted_runtime) (H0:=quietHost)
               sampleContext sampleData (hostOf bootedProcess) in
  (res.2 = Return (anyMeta m, None) ↔
   ∀ n p, provider.subs bootedInstance !! n = Some p →
          Configure (Host:=quietHost) p (log.LogFromHCLog lg) sampleData = None) ∧
  (res.2 = Return (anyMeta m, None) →
   clientUserAgent res.1
     = UserAgent (Host:=quietHost) ProviderName (terraformVersion (hostOf bootedProcess)) ∧
   ∃ called, configured res.1 = configured (hostOf bootedProcess) ++ called ∧
             called ≡ₚ (map_to_list (provider.subs bootedInstance)).*2).
Proof.
  apply (configure_succeeds_iff_all_nil (H:=sorted_runtime) (H0:=quietHost)
           sampleContext sampleData (hostOf bootedProcess) 1%positive bootedInstance
           sampleOpid).
  - reflexivity.
  - reflexivity.
  - reflexivity.
Defined.

(** X11.  With [instance] in place and a successful random draw, the
    configure function never panics and changes nothing of the process but
    the iteration seed.  When it returns diagnostics, they are the non-nil
    result of one registered sub-provider's [Configure] (be it an error, a
    warning or an empty slice): the value returned is nil,
    [client.UserAgent] is left as it was, and the sub-providers configured
    before that one all returned nil; no other was called. *)
Theorem configure_stops_at_first_diagnostics `{Runtime} `{Host}
    (ctx : hclog.Context) (d : ResourceData) (s : host)
    (l : loc) (inst : provider.t) (opid : string) :
  instance (proc s) = Some l →
  providers (proc s) !! l = Some inst →
  NewRandom (entropy s) = inl opid →
  let lg := log.LogFromHCLog
              (hclog.With (hclog.FromContext ctx) ["OperationID"; opid]) in
  let res := configureContext ctx d s in
  (∃ v ds, res.2 = Return (v, ds)) ∧
  proc res.1 = next_seed (proc s) ∧
  (∀ v ds, res.2 = Return (v, Some ds) →
     v = anyNil ∧
     clientUserAgent res.1 = clientUserAgent s ∧
     ∃ called p n,
       configured res.1 = configured s ++ called ++ [p] ∧
       provider.subs inst !! n = Some p ∧
       Configure p lg d = Some ds ∧
       ∀ q, q ∈ called →
            Configure q lg d = None ∧ ∃ n', provider.subs inst !! n' = Some q).
Proof.
  intros Hi Hp Hr. simpl.
  rewrite (configureContext_unfold ctx d s l inst opid Hi Hp Hr). simpl.
  pose proof (configureRange_inv (range (seed (proc s)) (provider.subs inst))
                (log.LogFromHCLog (hclog.With (hclog.FromContext ctx) ["OperationID"; opid]))
                d) as Hinv.
  destruct (configureRange _ _ d) as [called [ds|]]; simpl in *.
  - destruct Hinv as (pre & p & post & Hsplit & -> & Hcp & Hpre).
    split_and!; [by eauto|done|]. intros v ds' [= <- <-].
    split_and!; [done..|].
    assert (∀ q, q ∈ pre ++ p :: post → ∃ n, provider.subs inst !! n = Some q) as Hreg.
    { intros q Hq. apply (range_values (seed (proc s))). by rewrite Hsplit. }
    destruct (Hreg p) as [n Hn]; [apply elem_of_app; right; by left|].
    exists pre, p, n. split_and!; [done..|].
    intros q Hq. split; [by apply Hpre|]. apply Hreg, elem_of_app. by left.
  - split_and!; [by eauto|done|]. by intros v ds [= _ ?].
Qed.

Lemma configure_stops_at_first_diagnostics_witness :
  let lg := log.LogFromHCLog
              (hclog.With (hclog.FromContext sampleContext) ["OperationID"; sampleOpid]) in
  let res := configureContext (H:=sorted_runtime) (H0:=sampleHost)
               sampleContext sampleData (hostOf bootedProcess) in
  anyNil = anyNil ∧
  clientUserAgent res.1 = clientUserAgent (hostOf bootedProcess) ∧
  ∃ called p n,
    configured res.1 = configured (hostOf bootedProcess) ++ called ++ [p] ∧
    provider.subs bootedInstance !! n = Some p ∧
    Configure (Host:=sampleHost) p lg sampleData = Some [gtmWarning] ∧
    ∀ q, q ∈ called →
         Configure (Host:=sampleHost) q lg sampleData = None ∧
         ∃ n', provider.subs bootedInstance !! n' = Some q.
Proof.
  apply (proj2 (proj2 (configure_stops_at_first_diagnostics (H:=sorted_runtime)
           (H0:=sampleHost) sampleContext sampleData (hostOf bootedProcess) 1%positive
           bootedInstance sampleOpid eq_refl eq_refl eq_refl)) anyNil [gtmWarning]).
  reflexivity.
Defined.

(** X12.  After a first call of [Provider] that returned, the configure
    function calls [Configure] only on sub-providers of the argument list
    that are the last of their name in it; when it succeeds it has called
    every one of those.  A sub-provider shadowed by a later one of the same
    name is thus never configured, although its keys were merged. *)
Theorem Provider_then_configure `{Runtime} `{Host}
    (provs : list Subprovider.t) (σ : process) (f : ProviderFunc)
    (ctx : hclog.Context) (d : ResourceData) (s : host) (opid : string) :
  once σ = false →
  (Provider provs σ).2 = Return f →
  proc s = (Provider provs σ).1 →
  NewRandom (entropy s) = inl opid →
  let res := configureContext ctx d s in
  ∃ called,
    configured res.1 = configured s ++ called ∧
    (∀ p, p ∈ called → p ∈ provs ∧ lastNamed (Subprovider.Name p) provs = Some p) ∧
    (∀ v, res.2 = Return (v, None) →
          ∀ p, lastNamed (Subprovider.Name p) provs = Some p → p ∈ called).
Proof.
  intros Hd Hret Hproc Hr. simpl.
  destruct (Provider_Return_subs provs σ f Hd Hret) as (l & inst & Hi & Hp & Hsubs).
  rewrite <-Hproc in Hi, Hp.
  rewrite (configureContext_unfold ctx d s l inst opid Hi Hp Hr). simpl.
  pose proof (configureRange_inv (range (seed (proc s)) (provider.subs inst))
                (log.LogFromHCLog (hclog.With (hclog.FromContext ctx) ["OperationID"; opid]))
                d) as Hinv.
  assert (∀ q, q ∈ (range (seed (proc s)) (provider.subs inst)).*2 →
               q ∈ provs ∧ lastNamed (Subprovider.Name q) provs = Some q) as Hreg.
  { intros q [n Hn]%range_values. rewrite Hsubs in Hn.
    destruct (lastNamed_Some n provs q Hn) as [Hin <-]. done. }
  destruct (configureRange _ _ d) as [called [ds|]]; simpl in *.
  - destruct Hinv as (pre & p & post & Hsplit & -> & Hcp & Hpre).
    eexists. split_and!; [done| |done].
    intros q Hq. apply Hreg. rewrite Hsplit.
    apply elem_of_app in Hq as [Hq| ->%list_elem_of_singleton].
    + apply elem_of_app. by left.
    + apply elem_of_app. right. by left.
  - destruct Hinv as [-> Hall]. eexists. split_and!; [done|done|].
    intros v _ p Hlast. apply range_values. exists (Subprovider.Name p). by rewrite Hsubs.
Qed.

Lemma Provider_then_configure_witness :
  let res := configureContext (H:=sorted_runtime) (H0:=quietHost) sampleContext sampleData
               (hostOf (Provider (H:=sorted_runtime) [dnsProvider; dnsTwin] start).1) in
  ∃ called,
    configured res.1
      = configured (hostOf (Provider (H:=sorted_runtime) [dnsProvider; dnsTwin] start).1)
        ++ called ∧
    (∀ p, p ∈ called →
          p ∈ [dnsProvider; dnsTwin] ∧
          lastNamed (Subprovider.Name p) [dnsProvider; dnsTwin] = Some p) ∧
    (∀ v, res.2 = Return (v, None) →
          ∀ p, lastNamed (Subprovider.Name p) [dnsProvider; dnsTwin] = Some p →
               p ∈ called).
Proof.
  apply (Provider_then_configure (H:=sorted_runtime) (H0:=quietHost)
           [dnsProvider; dnsTwin] start providerFunc sampleContext sampleData
           (hostOf (Provider (H:=sorted_runtime) [dnsProvider; dnsTwin] start).1)
           sampleOpid).
  - reflexivity.
  - reflexivity.
  - reflexivity.
  - reflexivity.
Defined.

(** X13.  What [Meta] makes of the configure function's value: after a
    successful configuration it returns the meta object, whose
    [OperationID] is the id drawn for this configuration and whose [Log]
    builds on the very logger every sub-provider was configured with;
    after a configuration that returned diagnostics the value is nil and
    [Meta] panics. *)
Theorem Meta_of_configured_value `{Runtime} `{Host}
    (ctx : hclog.Context) (d : ResourceData) (s : host)
    (l : loc) (inst : provider.t) (opid : string)
    (v : any) (ds : diag.Diagnostics) :
  instance (proc s) = Some l →
  providers (proc s) !! l = Some inst →
  NewRandom (entropy s) = inl opid →
  (configureContext ctx d s).2 = Return (v, ds) →
  match ds with
  | None =>
      ∃ m, Meta v = Return m ∧ OperationID m = opid ∧
           ∀ args, metaLog m args =
                   log.LogFromHCLog
                     (hclog.With
                        (hclog.With (hclog.FromContext ctx) ["OperationID"; opid])
                        args)
  | Some _ => ∃ pv, Meta v = Panic pv
  end.
Proof.
  intros Hi Hp Hr.
  rewrite (configureContext_unfold ctx d s l inst opid Hi Hp Hr). simpl.
  destruct (configureRange _ _ d) as [called [ds'|]]; simpl.
  - intros [= <- <-]. simpl. by eauto.
  - intros [= <- <-]. eexists. by split_and!.
Qed.

Lemma Meta_of_configured_value_witness :
  ∃ m, Meta (anyMeta {| meta.operationID := sampleOpid;
                        meta.log := hclog.With (hclog.FromContext sampleContext)
                                      ["OperationID"; sampleOpid] |}) = Return m ∧
       OperationID m = sampleOpid ∧
       ∀ args, metaLog m args =
               log.LogFromHCLog
                 (hclog.With
                    (hclog.With (hclog.FromContext sampleContext)
                       ["OperationID"; sampleOpid])
                    args).
Proof.
  apply (Meta_of_configured_value (H:=sorted_runtime) (H0:=quietHost)
           sampleContext sampleData (hostOf bootedProcess) 1%positive bootedInstance
           sampleOpid
           (anyMeta {| meta.operationID := sampleOpid;
                       meta.log := hclog.With (hclog.FromContext sampleContext)
                                     ["OperationID"; sampleOpid] |})
           None).
  - reflexivity.
  - reflexivity.
  - reflexivity.
  - reflexivity.
Defined.

(** X14.  With a working cache constructor, the panic of a first call of
    [Provider] carries the wrapped [ErrDuplicateSchemaKey] naming a key
    that really is registered twice: by a sub-provider and the base
    schema, or by two sub-providers in the same kind of map. *)
Theorem Provider_panic_names_duplicate `{Runtime}
    (provs : list Subprovider.t) (σ : process) (c : BigCache) (pv : panic_value) :
  once σ = false →
  NewBigCache tenMinutes = inl c →
  (Provider provs σ).2 = Panic pv →
  ∃ k, pv = PanicErr (Errorf_w ErrDuplicateSchemaKey k) ∧ registered_twice k provs.
Proof.
  intros Hd Hcache. rewrite (Provider_unfold provs σ Hd). simpl.
  pose proof (initialize_panic_key provs σ c) as Hkey.
  destruct (initialize provs σ).2 as [[]|pv1]; [done|].
  intros [= <-]. by apply Hkey.
Qed.

Lemma Provider_panic_names_duplicate_witness :
  ∃ k, PanicErr (Errorf_w ErrDuplicateSchemaKey "akamai_authorities_set")
         = PanicErr (Errorf_w ErrDuplicateSchemaKey k) ∧
       registered_twice k [dnsProvider; gtmProvider; rivalProvider].
Proof.
  apply (Provider_panic_names_duplicate (H:=sorted_runtime)
           [dnsProvider; gtmProvider; rivalProvider] start
           {| LifeWindow := tenMinutes |}
           (PanicErr (Errorf_w ErrDuplicateSchemaKey "akamai_authorities_set"))).
  - reflexivity.
  - reflexivity.
  - reflexivity.
Defined.
